(** * Outline extraction from converted HTML ([extract_outline.py])

    A shallow embedding of the outline tool: the sanitizer
    [clean_html_for_outline], the heading loop of [extract_outline], the
    text, Markdown and JSON renderers and the command-line driver, together
    with the properties the specification states about them.

    Python strings are sequences of Unicode code points; they are modelled
    as lists of code points ([N]).  The three regular expressions of the
    source are kept as regular expressions and run by a backtracking matcher
    that follows the priority order of Python's [re] module. *)

From Stdlib Require Import Ascii String NArith.
From stdpp Require Import base decidable numbers list list_relations option countable gmap pretty.

Set Default Proof Using "Type".

(** ** Python strings *)

Definition char : Type := N.
Abbreviation str := (list char).

(** A Rocq string literal is a sequence of bytes; [utf8] decodes it (the
    source file is UTF-8) into the code points Python sees. *)
Fixpoint utf8_bytes (s : string) : list N :=
  match s with
  | EmptyString => []
  | String a s' => N_of_ascii a :: utf8_bytes s'
  end.

Definition low6 (b : N) : N := N.land b 0x3F.

Fixpoint utf8_decode (fuel : nat) (bs : list N) : str :=
  match fuel with
  | O => []
  | S fuel' =>
      match bs with
      | [] => []
      | b0 :: r0 =>
          if (b0 <? 0x80)%N then b0 :: utf8_decode fuel' r0
          else if (b0 <? 0xE0)%N then
            match r0 with
            | b1 :: r1 =>
                (N.shiftl (N.land b0 0x1F) 6 + low6 b1)%N :: utf8_decode fuel' r1
            | _ => []
            end
          else if (b0 <? 0xF0)%N then
            match r0 with
            | b1 :: b2 :: r2 =>
                (N.shiftl (N.land b0 0x0F) 12 + N.shiftl (low6 b1) 6 + low6 b2)%N
                  :: utf8_decode fuel' r2
            | _ => []
            end
          else
            match r0 with
            | b1 :: b2 :: b3 :: r3 =>
                (N.shiftl (N.land b0 0x07) 18 + N.shiftl (low6 b1) 12
                 + N.shiftl (low6 b2) 6 + low6 b3)%N :: utf8_decode fuel' r3
            | _ => []
            end
      end
  end.

Definition utf8 (s : string) : str :=
  let bs := utf8_bytes s in utf8_decode (length bs) bs.

(** [str.isspace] / [\s]: the whitespace code points of CPython
    ([Py_UNICODE_ISSPACE]). *)
Definition is_space (c : char) : bool :=
  ((0x09 <=? c) && (c <=? 0x0D) || (0x1C <=? c) && (c <=? 0x20)
   || (c =? 0x85) || (c =? 0xA0) || (c =? 0x1680)
   || (0x2000 <=? c) && (c <=? 0x200A)
   || (c =? 0x2028) || (c =? 0x2029) || (c =? 0x202F) || (c =? 0x205F)
   || (c =? 0x3000))%N.

(** [\d] on a [str] pattern: the decimal digits of Unicode (category Nd,
    Unicode 14 as shipped with CPython 3.11).  Every run of Nd characters is
    a block of ten starting at one of [nd_starts]. *)
Definition nd_starts : list N :=
  [ 0x30; 0x660; 0x6F0; 0x7C0; 0x966; 0x9E6; 0xA66; 0xAE6; 0xB66; 0xBE6;
    0xC66; 0xCE6; 0xD66; 0xDE6; 0xE50; 0xED0; 0xF20; 0x1040; 0x1090; 0x17E0;
    0x1810; 0x1946; 0x19D0; 0x1A80; 0x1A90; 0x1B50; 0x1BB0; 0x1C40; 0x1C50;
    0xA620; 0xA8D0; 0xA900; 0xA9D0; 0xA9F0; 0xAA50; 0xABF0; 0xFF10; 0x104A0;
    0x10D30; 0x11066; 0x110F0; 0x11136; 0x111D0; 0x112F0; 0x11450; 0x114D0;
    0x11650; 0x116C0; 0x11730; 0x118E0; 0x11950; 0x11C50; 0x11D50; 0x11DA0;
    0x16A60; 0x16AC0; 0x16B50;
    0x1D7CE; 0x1D7D8; 0x1D7E2; 0x1D7EC; 0x1D7F6;
    0x1E140; 0x1E2F0; 0x1E950; 0x1FBF0 ]%N.

Definition is_digit (c : char) : bool :=
  existsb (fun lo => (lo <=? c) && (c <? lo + 10))%N nd_starts.

Definition NL : char := 0x0A%N.
Definition DOT : char := 0x2E%N.

(** [str.strip()] with no argument. *)
Fixpoint lstrip (s : str) : str :=
  match s with
  | c :: s' => if is_space c then lstrip s' else s
  | [] => []
  end.

Definition rstrip (s : str) : str := rev (lstrip (rev s)).

Definition strip (s : str) : str := rstrip (lstrip s).

(** [s.count(c)] for a one-character needle. *)
Fixpoint count_char (c : char) (s : str) : nat :=
  match s with
  | [] => 0
  | x :: s' => (if (x =? c)%N then 1 else 0) + count_char c s'
  end.

(** [sep.join(lines)] *)
Fixpoint join (sep : str) (lines : list str) : str :=
  match lines with
  | [] => []
  | [l] => l
  | l :: ls => l ++ sep ++ join sep ls
  end.

(** [s * n] *)
Fixpoint repeat_str (s : str) (n : nat) : str :=
  match n with
  | O => []
  | S n' => s ++ repeat_str s n'
  end.

(** [str(n)] for a non-negative integer. *)
Definition str_of_nat (n : nat) : str := utf8_bytes (pretty n).

(** ** Regular expressions, as Python's [re] runs them *)

Module Re.

(** The constructs the three patterns of the source use.  [Star true r] is
    the greedy [r*], [Star false r] the lazy [r*?]; [Alt] tries its left
    branch first; [Group i r] is the capturing group number [i]; [Eos] is
    [$] without [re.MULTILINE]. *)
Inductive regex : Type :=
  | Chr (p : char -> bool)
  | Eps
  | Seq (r1 r2 : regex)
  | Alt (r1 r2 : regex)
  | Star (greedy : bool) (r : regex)
  | Group (i : nat) (r : regex)
  | Eos.

Definition Plus (greedy : bool) (r : regex) : regex := Seq r (Star greedy r).
Definition Opt (r : regex) : regex := Alt r Eps.

Fixpoint Lit (s : str) : regex :=
  match s with
  | [] => Eps
  | c :: s' => Seq (Chr (N.eqb c)) (Lit s')
  end.

(** Captured groups, most recent first. *)
Definition caps : Type := list (nat * str).

Definition cont : Type := str -> caps -> option caps.

Definition orelse (a : option caps) (b : unit -> option caps) : option caps :=
  match a with
  | Some res => Some res
  | None => b tt
  end.

(** The loop of a starred expression.  [body] runs one iteration; an
    iteration that consumes nothing is not repeated.  [fuel] is the length
    of the subject: every iteration shortens it. *)
Fixpoint star_loop (body : str -> caps -> cont -> option caps) (greedy : bool)
    (k : cont) (fuel : nat) (s : str) (c : caps) : option caps :=
  match fuel with
  | O => k s c
  | S fuel' =>
      let again (_ : unit) :=
        body s c (fun s' c' =>
          if (length s' <? length s)%nat
          then star_loop body greedy k fuel' s' c' else None) in
      if greedy then orelse (again tt) (fun _ => k s c)
      else orelse (k s c) again
  end.

(** [run r s c k]: match [r] at the front of [s], then continue with [k] on
    the rest; alternatives are explored in Python's order and the first
    complete success wins. *)
Fixpoint run (r : regex) (s : str) (c : caps) (k : cont) {struct r} : option caps :=
  match r with
  | Chr p =>
      match s with
      | x :: s' => if p x then k s' c else None
      | [] => None
      end
  | Eps => k s c
  | Seq r1 r2 => run r1 s c (fun s' c' => run r2 s' c' k)
  | Alt r1 r2 => orelse (run r1 s c k) (fun _ => run r2 s c k)
  | Star g r' => star_loop (run r') g k (length s) s c
  | Group i r' =>
      run r' s c (fun s' c' => k s' ((i, take (length s - length s') s) :: c'))
  | Eos =>
      match s with
      | [] => k s c
      | [x] => if (x =? NL)%N then k s c else None
      | _ => None
      end
  end.

(** [re.match(r, s)]: anchored at the start, not at the end. *)
Definition rmatch (r : regex) (s : str) : option caps :=
  run r s [] (fun _ c => Some c).

(** [m.group(i)] of a group that took part in the match. *)
Fixpoint group (i : nat) (c : caps) : str :=
  match c with
  | [] => []
  | (j, v) :: c' => if (i =? j)%nat then v else group i c'
  end.

End Re.

Import Re.

(** ** The patterns of the source *)

Definition digit : regex := Chr is_digit.
Definition space : regex := Chr is_space.
Definition any : regex := Chr (fun c => negb (c =? NL)%N).

Definition is_oneof (s : str) (c : char) : bool := existsb (N.eqb c) s.

(** The numeral path: [\d+ (?: \. \d+ ) *] *)
Definition numeral_re : regex :=
  Seq (Plus true digit) (Star true (Seq (Chr (N.eqb DOT)) (Plus true digit))).

(** The optional page number: [(?: \s+ \d+ ) ?] *)
Definition page_re : regex := Opt (Seq (Plus true space) (Plus true digit)).

(** The caption test of the sanitizer: [^ ( 图 | 表 | Fig | Table ) \s* [\d\.]+] *)
Definition caption_pattern : regex :=
  Seq (Group 1 (Alt (Lit (utf8 "图")) (Alt (Lit (utf8 "表"))
                 (Alt (Lit (utf8 "Fig")) (Lit (utf8 "Table"))))))
      (Seq (Star true space)
           (Plus true (Chr (fun c => is_digit c || (c =? DOT)%N)))).

(** The digits-and-punctuation test: [^ [\d\s\.\-\,\(\)\[\]]+ $] *)
Definition noise_char (c : char) : bool :=
  is_digit c || is_space c || is_oneof (utf8 ".-,()[]") c.

Definition noise_pattern : regex := Seq (Plus true (Chr noise_char)) Eos.

(** [heading_pattern], written out with blanks between its parts:
    [^ ( \d+ (?: \. \d+ ) * ) \s+ ( .+? ) (?: \s+ \d+ ) ? $] *)
Definition heading_pattern : regex :=
  Seq (Group 1 numeral_re)
      (Seq (Plus true space)
           (Seq (Group 2 (Plus false any))
                (Seq page_re Eos))).

(** ** The parsed document

    A [BeautifulSoup] object is a tree of tags and strings.  [find_all]
    returns references to tags of that tree and [decompose] destroys a tag in
    place, so the references held by a loop stay valid Python objects while
    the tree changes under them.  A reference is modelled by the path of the
    tag from the root (child indices), and the mutable tree by the parsed
    tree together with the log of the tags [decompose] was called on: a tag
    is gone from the document, and empty when reached through an old
    reference, as soon as the log holds its path or the path of one of its
    ancestors.  [Text] stands for the strings that [get_text] joins;
    comments and other strings it skips are left out of the tree.
    [clean_html_for_outline] returns this log in the place of the soup it
    has changed. *)

#[local] Unset Elimination Schemes.
Inductive node : Type :=
  | Text (s : str)
  | Elem (name : string) (children : list node).
#[local] Set Elimination Schemes.

(** Induction on a tree, with the hypothesis for every child of a tag. *)
Section NodeInd.

Variable P : node -> Prop.
Hypothesis Htext : forall s, P (Text s).
Hypothesis Helem : forall nm cs, Forall P cs -> P (Elem nm cs).

Fixpoint node_ind (n : node) : P n :=
  match n with
  | Text s => Htext s
  | Elem nm cs =>
      Helem nm cs
        ((fix go (cs : list node) : Forall P cs :=
            match cs with
            | [] => Forall_nil_2 P
            | c :: cs' => Forall_cons_2 P c cs' (node_ind c) (go cs')
            end) cs)
  end.

End NodeInd.

Abbreviation soup := (list node).
Abbreviation path := (list nat).

Fixpoint is_prefix (q p : path) : bool :=
  match q, p with
  | [], _ => true
  | x :: q', y :: p' => (x =? y)%nat && is_prefix q' p'
  | _ :: _, [] => false
  end.

(** The tag at [p] was destroyed: by a call on itself or on an ancestor. *)
Definition decomposed (lg : list path) (p : path) : bool :=
  existsb (fun q => is_prefix q p) lg.

(** [tag.decompose()] *)
Definition decompose (lg : list path) (p : path) : list path := lg ++ [p].

(** The strings below a node, in document order: [get_text] joins them. *)
Fixpoint node_text (lg : list path) (pre : path) (n : node) : str :=
  if decomposed lg pre then []
  else
    match n with
    | Text s => s
    | Elem _ cs =>
        (fix kids (i : nat) (cs : list node) : str :=
           match cs with
           | [] => []
           | c :: cs' => node_text lg (pre ++ [i]) c ++ kids (S i) cs'
           end) 0%nat cs
    end.

Fixpoint kids_text (lg : list path) (pre : path) (i : nat) (cs : list node) : str :=
  match cs with
  | [] => []
  | c :: cs' => node_text lg (pre ++ [i]) c ++ kids_text lg pre (S i) cs'
  end.

(** The node a path leads to: below a node, and from the root. *)
Fixpoint sub_at (n : node) (p : path) : option node :=
  match p with
  | [] => Some n
  | i :: p' =>
      match n with
      | Elem _ cs =>
          match cs !! i with
          | Some c => sub_at c p'
          | None => None
          end
      | Text _ => None
      end
  end.

Definition node_at (t : soup) (p : path) : option node :=
  match p with
  | [] => None
  | i :: p' =>
      match t !! i with
      | Some n => sub_at n p'
      | None => None
      end
  end.

(** [tag.get_text()] through the reference [p]. *)
Definition get_text (t : soup) (lg : list path) (p : path) : str :=
  match node_at t p with
  | Some n => node_text lg p n
  | None => []
  end.

Definition has_name (names : list string) (nm : string) : bool :=
  existsb (String.eqb nm) names.

(** The tags named in [names] at or below a node, in document order. *)
Fixpoint find_in (lg : list path) (names : list string) (pre : path) (n : node)
    : list path :=
  if decomposed lg pre then []
  else
    match n with
    | Text _ => []
    | Elem nm cs =>
        (if has_name names nm then [pre] else [])
        ++ (fix kids (i : nat) (cs : list node) : list path :=
              match cs with
              | [] => []
              | c :: cs' => find_in lg names (pre ++ [i]) c ++ kids (S i) cs'
              end) 0%nat cs
    end.

Fixpoint find_kids (lg : list path) (names : list string) (pre : path)
    (i : nat) (cs : list node) : list path :=
  match cs with
  | [] => []
  | c :: cs' => find_in lg names (pre ++ [i]) c ++ find_kids lg names pre (S i) cs'
  end.

(** [soup.find_all(names)] *)
Definition find_all (t : soup) (lg : list path) (names : list string) : list path :=
  find_kids lg names [] 0 t.

(** ** The sanitizer: [clean_html_for_outline] *)

Record CleanStats : Type := mkStats {
  tables_removed : nat;
  images_removed : nat;
  scripts_removed : nat;
  captions_removed : nat;
  long_paragraphs_removed : nat
}.

(** [for tag in tags: tag.decompose()] *)
Definition decompose_each (lg : list path) (tags : list path) : list path :=
  fold_left decompose tags lg.

(** The body of the loop over [soup.find_all(['p', 'div'])]. *)
Definition caption_or_long (t : soup) (st : list path * CleanStats) (p : path)
    : list path * CleanStats :=
  let '(lg, stats) := st in
  let text := strip (get_text t lg p) in
  match rmatch caption_pattern text with
  | Some _ =>
      (decompose lg p,
       mkStats (tables_removed stats) (images_removed stats) (scripts_removed stats)
               (captions_removed stats + 1) (long_paragraphs_removed stats))
  | None =>
      if (200 <? length text)%nat then
        (decompose lg p,
         mkStats (tables_removed stats) (images_removed stats) (scripts_removed stats)
                 (captions_removed stats) (long_paragraphs_removed stats + 1))
      else st
  end.

(** The log after the four tag rules (steps 1 to 4 of the source). *)
Definition strip_tags (t : soup) : list path * CleanStats :=
  let tables := find_all t [] ["table"] in
  let lg1 := decompose_each [] tables in
  let images := find_all t lg1 ["img"] in
  let lg2 := decompose_each lg1 images in
  let scripts := find_all t lg2 ["script"; "style"] in
  let lg3 := decompose_each lg2 scripts in
  let lg4 := decompose_each lg3 (find_all t lg3 ["head"; "meta"; "link"; "svg"; "canvas"]) in
  (lg4, mkStats (length tables) (length images) (length scripts) 0 0).

Definition clean_html_for_outline (t : soup) : list path * CleanStats :=
  let st4 := strip_tags t in
  fold_left (caption_or_long t) (find_all t st4.1 ["p"; "div"]) st4.

(** The tree that is left, for reading a sanitized document back. *)
Fixpoint prune (lg : list path) (pre : path) (n : node) : list node :=
  if decomposed lg pre then []
  else
    match n with
    | Text s => [Text s]
    | Elem nm cs =>
        [Elem nm
           ((fix kids (i : nat) (cs : list node) : list node :=
               match cs with
               | [] => []
               | c :: cs' => prune lg (pre ++ [i]) c ++ kids (S i) cs'
               end) 0%nat cs)]
    end.

Fixpoint prune_kids (lg : list path) (pre : path) (i : nat) (cs : list node)
    : list node :=
  match cs with
  | [] => []
  | c :: cs' => prune lg (pre ++ [i]) c ++ prune_kids lg pre (S i) cs'
  end.

Definition reduced (t : soup) (lg : list path) : soup := prune_kids lg [] 0 t.

(** ** The heading loop of [extract_outline] *)

Record entry : Type := mkEntry {
  number : str;
  title : str;
  level : nat;
  full_text : str
}.

Definition block_tags : list string :=
  ["p"; "div"; "h1"; "h2"; "h3"; "h4"; "h5"; "h6"].

(** One iteration of [for p in paragraphs], on the text of the block;
    [acc] is [(outline, processed_numbers)]. *)
Definition outline_step (max_level : nat) (acc : list entry * gset str)
    (raw : str) : list entry * gset str :=
  let text := strip raw in
  match text with
  | [] => acc
  | _ :: _ =>
      match rmatch noise_pattern text with
      | Some _ => acc
      | None =>
          match rmatch heading_pattern text with
          | None => acc
          | Some m =>
              let number := group 1 m in
              let title := strip (group 2 m) in
              if bool_decide (title = []) || (length title <? 2)%nat then acc
              else if bool_decide (number ∈ acc.2) then acc
              else
                let level := (count_char DOT number + 1)%nat in
                if (level <=? max_level)%nat then
                  (acc.1 ++ [mkEntry number title level text], {[ number ]} ∪ acc.2)
                else acc
          end
      end
  end.

Definition collect_outline (max_level : nat) (texts : list str) : list entry :=
  (fold_left (outline_step max_level) texts ([], ∅)).1.

(** Lines 83 to 146: sanitize, list the blocks, run the loop. *)
Definition outline_of_soup (max_level : nat) (t : soup) : list entry :=
  let lg := (clean_html_for_outline t).1 in
  let paragraphs := find_all t lg block_tags in
  (fold_left (fun acc p => outline_step max_level acc (get_text t lg p))
             paragraphs ([], ∅)).1.

(** ** The renderers *)

Definition text_line (item : entry) : str :=
  repeat_str (utf8 "  ") (level item - 1) ++ number item ++ utf8 " " ++ title item.

Definition generate_text_outline (outline : list entry) : str :=
  join [NL] (map text_line outline).

Definition markdown_lines (item : entry) : list str :=
  [repeat_str (utf8 "#") (level item + 1) ++ utf8 " " ++ number item
     ++ utf8 " " ++ title item; []].

Definition generate_markdown_outline (outline : list entry) : str :=
  join [NL] ([utf8 "# 文档大纲"; []] ++ flat_map markdown_lines outline).

(** [json.dumps(outline, ensure_ascii=False, indent=2)] on a list of
    dictionaries with the four keys of an entry.  Only the quote, the
    backslash and the control characters below U+0020 are escaped. *)
Definition hex_digit (d : N) : char :=
  (if d <? 10 then 0x30 + d else 0x61 + (d - 10))%N.

Definition QUOTE : char := 0x22%N.
Definition BACKSLASH : char := 0x5C%N.

Definition json_escape (c : char) : str :=
  if (c =? QUOTE)%N then [BACKSLASH; QUOTE]
  else if (c =? BACKSLASH)%N then [BACKSLASH; BACKSLASH]
  else if (c =? 0x0A)%N then BACKSLASH :: utf8 "n"
  else if (c =? 0x0D)%N then BACKSLASH :: utf8 "r"
  else if (c =? 0x09)%N then BACKSLASH :: utf8 "t"
  else if (c =? 0x08)%N then BACKSLASH :: utf8 "b"
  else if (c =? 0x0C)%N then BACKSLASH :: utf8 "f"
  else if (c <? 0x20)%N then
    BACKSLASH :: utf8 "u00" ++ [hex_digit (c / 16); hex_digit (c mod 16)]
  else [c].

Definition json_string (s : str) : str :=
  [QUOTE] ++ flat_map json_escape s ++ [QUOTE].

Definition json_entry (item : entry) : str :=
  utf8 "{" ++ [NL]
  ++ utf8 "    " ++ json_string (utf8 "number") ++ utf8 ": " ++ json_string (number item)
  ++ utf8 "," ++ [NL]
  ++ utf8 "    " ++ json_string (utf8 "title") ++ utf8 ": " ++ json_string (title item)
  ++ utf8 "," ++ [NL]
  ++ utf8 "    " ++ json_string (utf8 "level") ++ utf8 ": " ++ str_of_nat (level item)
  ++ utf8 "," ++ [NL]
  ++ utf8 "    " ++ json_string (utf8 "full_text") ++ utf8 ": "
  ++ json_string (full_text item) ++ [NL]
  ++ utf8 "  }".

Definition json_dumps (outline : list entry) : str :=
  match outline with
  | [] => utf8 "[]"
  | _ :: _ =>
      utf8 "[" ++ [NL]
      ++ join (utf8 "," ++ [NL]) (map (fun item => utf8 "  " ++ json_entry item) outline)
      ++ [NL] ++ utf8 "]"
  end.

(** The [if format == 'json' ... elif format == 'markdown' ... else] of the
    source. *)
Definition render (format : str) (outline : list entry) : str :=
  if bool_decide (format = utf8 "json") then json_dumps outline
  else if bool_decide (format = utf8 "markdown") then generate_markdown_outline outline
  else generate_text_outline outline.

(** ** Files and console

    [extract_outline] and the driver open files and print.  What [open],
    [read], [write] and [print] do is decided by the system the program
    runs on, not by the program: a path may name no file, or the same file
    as another path; a file may not decode; a directory may be missing; the
    console may refuse a character.  The program is therefore kept apart
    from the system: it is the tree of the requests it makes, each with what
    it does with the answer, and a run is what a system makes of the tree.
    A request the system refuses raises, and nothing in the source catches
    an exception: the run ends there. *)

Inductive io (A : Type) : Type :=
  | Ret (a : A)
  | ReadFile (f : str) (k : str -> io A)
  | WriteFile (f : str) (text : str) (k : io A)
  | PrintLine (s : str) (k : io A).

Arguments Ret {A} a.
Arguments ReadFile {A} f k.
Arguments WriteFile {A} f text k.
Arguments PrintLine {A} s k.

Definition ret {A : Type} (a : A) : io A := Ret a.

Fixpoint bind {A B : Type} (m : io A) (f : A -> io B) : io B :=
  match m with
  | Ret a => f a
  | ReadFile g k => ReadFile g (fun content => bind (k content) f)
  | WriteFile g text k => WriteFile g text (bind k f)
  | PrintLine s k => PrintLine s (bind k f)
  end.

Declare Scope io_scope.
Delimit Scope io_scope with io.
Notation "x <- m ;; k" := (bind m (fun x => k))
  (at level 100, m at next level, right associativity) : io_scope.
Notation "m ;; k" := (bind m (fun _ => k))
  (at level 100, right associativity) : io_scope.

(** [open(f, "r", encoding="utf-8").read()] *)
Definition read_file (f : str) : io str := ReadFile f Ret.

(** [open(f, 'w', encoding='utf-8').write(text)] *)
Definition write_file (f : str) (text : str) : io unit := WriteFile f text (Ret tt).

Definition print (s : str) : io unit := PrintLine s (Ret tt).

(** The file names the driver writes to. *)
Definition outline_txt : str := utf8 "附件1_outline.txt".
Definition outline_md : str := utf8 "附件1_outline.md".
Definition outline_json : str := utf8 "附件1_outline.json".

Record Args : Type := mkArgs {
  input_file : str;
  arg_max_level : nat;
  arg_format : str;
  arg_output : option str
}.

Section Driver.

(** [BeautifulSoup(content, 'html.parser')]: the parser is a library; the
    driver is stated over any parser. *)
Variable html_parser : str -> soup.

Open Scope io_scope.

Definition extract_outline (html_file : str) (output_file : option str)
    (format : str) (max_level : nat) : io (list entry) :=
  content <- read_file html_file ;;
  let soup := html_parser content in
  let clean_stats := (clean_html_for_outline soup).2 in
  print (utf8 "HTML 清理完成：") ;;
  print (utf8 "  - 移除表格: " ++ str_of_nat (tables_removed clean_stats) ++ utf8 " 个") ;;
  print (utf8 "  - 移除图片: " ++ str_of_nat (images_removed clean_stats) ++ utf8 " 个") ;;
  print (utf8 "  - 移除脚本/样式: " ++ str_of_nat (scripts_removed clean_stats) ++ utf8 " 个") ;;
  print (utf8 "  - 移除图表标注: " ++ str_of_nat (captions_removed clean_stats) ++ utf8 " 个") ;;
  print (utf8 "  - 移除长文本段落: "
         ++ str_of_nat (long_paragraphs_removed clean_stats) ++ utf8 " 个") ;;
  print [] ;;
  let outline := outline_of_soup max_level soup in
  let output_text := render format outline in
  match output_file with
  | Some (c :: f) =>
      write_file (c :: f) output_text ;;
      print (utf8 "大纲已保存到: " ++ c :: f)
  | _ => print output_text
  end ;;
  ret outline.

(** The [__main__] block, after [parser.parse_args()]. *)
Definition main (args : Args) : io unit :=
  let input_file := input_file args in
  let max_level := arg_max_level args in
  print (utf8 "正在提取文档大纲（最大层级: " ++ str_of_nat max_level
         ++ utf8 "）..." ++ [NL]) ;;
  outline <- extract_outline input_file None (utf8 "txt") max_level ;;
  extract_outline input_file (Some outline_txt) (utf8 "txt") max_level ;;
  extract_outline input_file (Some outline_md) (utf8 "markdown") max_level ;;
  extract_outline input_file (Some outline_json) (utf8 "json") max_level ;;
  print (NL :: utf8 "共提取到 " ++ str_of_nat (length outline)
         ++ utf8 " 个章节标题（层级 1-" ++ str_of_nat max_level ++ utf8 "）") ;;
  print (NL :: utf8 "生成的文件：") ;;
  print (utf8 "  - 附件1_outline.txt (纯文本格式)") ;;
  print (utf8 "  - 附件1_outline.md (Markdown 格式)") ;;
  print (utf8 "  - 附件1_outline.json (JSON 格式)") ;;
  print (NL :: utf8 "使用示例：") ;;
  print (utf8 "  python extract_outline.py                     # 默认提取 1-2 级标题") ;;
  print (utf8 "  python extract_outline.py --max-level 3       # 提取 1-3 级标题") ;;
  print (utf8 "  python extract_outline.py --max-level 1       # 只提取 1 级标题").

End Driver.

(** ** Systems and runs *)

(** What a run did, request by request: a request the system answered, or
    the one it refused, after which there is nothing. *)
Inductive event : Type :=
  | Read_ok (f : str) (content : str)
  | Read_failed (f : str)
  | Wrote (f : str) (text : str)
  | Write_failed (f : str) (text : str)
  | Printed (s : str)
  | Print_failed (s : str).

(** A system, with states [W]: what a request gives in a state, and the
    state after it; [None] when the request raises.  Nothing is assumed of
    a system: the content a read returns is whatever [f.read()] returns
    there (decoded, newlines translated), and two paths may well name one
    file. *)
Record system (W : Type) : Type := mkSystem {
  sys_read : str -> W -> option (str * W);
  sys_write : str -> str -> W -> option W;
  sys_print : str -> W -> option W
}.

Arguments mkSystem {W} _ _ _.
Arguments sys_read {W} _ _ _.
Arguments sys_write {W} _ _ _ _.
Arguments sys_print {W} _ _ _.

(** A run of a program on a system: the events, and the result with the
    state of the system when the program ran to its end. *)
Fixpoint run_io {W A : Type} (sys : system W) (m : io A) (w : W)
    : list event * option (A * W) :=
  match m with
  | Ret a => ([], Some (a, w))
  | ReadFile f k =>
      match sys_read sys f w with
      | Some (content, w') =>
          let '(tr, r) := run_io sys (k content) w' in (Read_ok f content :: tr, r)
      | None => ([Read_failed f], None)
      end
  | WriteFile f text k =>
      match sys_write sys f text w with
      | Some w' => let '(tr, r) := run_io sys k w' in (Wrote f text :: tr, r)
      | None => ([Write_failed f text], None)
      end
  | PrintLine s k =>
      match sys_print sys s w with
      | Some w' => let '(tr, r) := run_io sys k w' in (Printed s :: tr, r)
      | None => ([Print_failed s], None)
      end
  end.

(** The files read with what was read, the files written with what was
    written, and the strings printed, each in the order of the run. *)
Definition reads (tr : list event) : list (str * str) :=
  omap (fun e => match e with Read_ok f content => Some (f, content) | _ => None end) tr.

Definition writes (tr : list event) : list (str * str) :=
  omap (fun e => match e with Wrote f text => Some (f, text) | _ => None end) tr.

Definition printed (tr : list event) : list str :=
  omap (fun e => match e with Printed s => Some s | _ => None end) tr.

(** The files a program opens at all, on whatever system and whether or not
    the run goes on: for reading among [rs], for writing among [ws]. *)
Fixpoint opens_only {A : Type} (rs ws : list str) (m : io A) : Prop :=
  match m with
  | Ret _ => True
  | ReadFile f k => f ∈ rs /\ forall content, opens_only rs ws (k content)
  | WriteFile f _ k => f ∈ ws /\ opens_only rs ws k
  | PrintLine _ k => opens_only rs ws k
  end.


(** A small system for the examples: files in memory under their names,
    and the lines printed so far; a file that is there can be read, and
    every write and every print goes through.  It is one system among all:
    the properties below are stated of every system, and this one only
    shows that what they assume can be met. *)
Record world : Type := mkWorld {
  files : gmap str str;
  console : list str
}.

Definition memory : system world :=
  mkSystem
    (fun f w => match files w !! f with
                | Some content => Some (content, w)
                | None => None
                end)
    (fun f text w => Some (mkWorld (<[f := text]> (files w)) (console w)))
    (fun s w => Some (mkWorld (files w) (console w ++ [s]))).

(** ** Notions the properties are stated with *)

(** What a regular expression matches, independently of the order in which
    the matcher tries things: [matches r x rest] says that [r] can consume
    [x] when [rest] follows ([rest] matters for [$] only). *)
Inductive matches : regex -> str -> str -> Prop :=
  | matches_chr (p : char -> bool) c rest :
      p c = true -> matches (Chr p) [c] rest
  | matches_eps rest : matches Eps [] rest
  | matches_seq r1 r2 x y rest :
      matches r1 x (y ++ rest) -> matches r2 y rest ->
      matches (Seq r1 r2) (x ++ y) rest
  | matches_alt_l r1 r2 x rest : matches r1 x rest -> matches (Alt r1 r2) x rest
  | matches_alt_r r1 r2 x rest : matches r2 x rest -> matches (Alt r1 r2) x rest
  | matches_star_nil g r rest : matches (Star g r) [] rest
  | matches_star_more g r x y rest :
      x <> [] -> matches r x (y ++ rest) -> matches (Star g r) y rest ->
      matches (Star g r) (x ++ y) rest
  | matches_group i r x rest : matches r x rest -> matches (Group i r) x rest
  | matches_eos rest : rest = [] \/ rest = [NL] -> matches Eos [] rest.

Fixpoint groupless (r : regex) : bool :=
  match r with
  | Chr _ | Eps | Eos => true
  | Seq r1 r2 | Alt r1 r2 => groupless r1 && groupless r2
  | Star _ r' => groupless r'
  | Group _ _ => false
  end.

Definition digits (d : str) : Prop :=
  d <> [] /\ Forall (fun c => is_digit c = true) d.

Definition spaces (w : str) : Prop :=
  w <> [] /\ Forall (fun c => is_space c = true) w.

(** A dotted numeral: one or more runs of digits, joined by dots. *)
Definition dotted_numeral (n : str) : Prop :=
  exists parts, parts <> [] /\ Forall digits parts /\ n = join [DOT] parts.

(** A bare page number at the end of a line: blanks, then digits. *)
Definition page_number (s : str) : Prop :=
  exists w d, s = w ++ d /\ spaces w /\ digits d.

(** The four label words of the caption test. *)
Definition label_words : list str :=
  [utf8 "图"; utf8 "表"; utf8 "Fig"; utf8 "Table"].

(** A caption: a label word, optional blanks, a dotted numeral, anything. *)
Definition caption_like (text : str) : Prop :=
  exists lbl w n rest,
    text = lbl ++ w ++ n ++ rest /\ lbl ∈ label_words
    /\ Forall (fun c => is_space c = true) w /\ dotted_numeral n.

(** The candidate the heading matcher makes of one block (source lines 107
    to 129 and 136), before the accumulator looks at it. *)
Definition heading_candidate (raw : str) : option entry :=
  let text := strip raw in
  match text with
  | [] => None
  | _ :: _ =>
      match rmatch noise_pattern text with
      | Some _ => None
      | None =>
          match rmatch heading_pattern text with
          | None => None
          | Some m =>
              let number := group 1 m in
              let title := strip (group 2 m) in
              if bool_decide (title = []) || (length title <? 2)%nat then None
              else Some (mkEntry number title (count_char DOT number + 1) text)
          end
      end
  end.

Definition candidates (texts : list str) : list entry :=
  omap heading_candidate texts.

(** The accumulator as section 4.3 of the specification words it: depth
    first, then the seen set. *)
Fixpoint accumulate (max_level : nat) (seen : gset str) (cands : list entry)
    : list entry :=
  match cands with
  | [] => []
  | c :: cs =>
      if (max_level <? level c)%nat then accumulate max_level seen cs
      else if bool_decide (number c ∈ seen) then accumulate max_level seen cs
      else c :: accumulate max_level ({[ number c ]} ∪ seen) cs
  end.

(** No [decompose] call, from the [k]-th on, reaches a tag that an earlier
    call already destroyed, itself or through an ancestor. *)
Definition removed_once_from (k : nat) (lg : list path) : Prop :=
  forall i j q p, (i < j)%nat -> (k <= j)%nat ->
    lg !! i = Some q -> lg !! j = Some p -> ~ q `prefix_of` p.

Definition removed_once (lg : list path) : Prop := removed_once_from 0 lg.

(** A paragraph/div-like block of the document: a [p] or [div] tag. *)
Definition paragraph_like (t : soup) (p : path) : Prop :=
  exists nm cs, node_at t p = Some (Elem nm cs) /\ (nm = "p" \/ nm = "div")%string.

(** One of the two tests of the caption loop holds of a text. *)
Definition fires (text : str) : Prop :=
  is_Some (rmatch caption_pattern text) \/ (200 < length text)%nat.

(** The texts the heading loop runs over. *)
Definition block_texts (t : soup) : list str :=
  let lg := (clean_html_for_outline t).1 in
  map (get_text t lg) (find_all t lg block_tags).

(** The trimmed text of a block when the caption loop starts. *)
Definition text_before_captions (t : soup) (p : path) : str :=
  strip (get_text t (strip_tags t).1 p).

(** [if output_file:] holds of a path that is neither [None] nor empty. *)
Definition truthy (output_file : option str) : option str :=
  match output_file with
  | Some (c :: f) => Some (c :: f)
  | _ => None
  end.




(** Every call of [decompose] in [E], made after the log [lg], is on a tag
    that is still there; and a list of tags in which no tag comes before one
    of its ancestors. *)
Definition fresh (lg : list path) (E : list path) : Prop :=
  forall E1 p E2, E = E1 ++ p :: E2 -> decomposed (lg ++ E1) p = false.

Definition ancestors_first (L : list path) : Prop :=
  forall L1 p L2 q, L = L1 ++ p :: L2 -> q ∈ L1 -> ~ p `prefix_of` q.

(** ** The statements of the specification that need a closer look,
    as the specification words them *)

(** Section 4.2: a block whose text matches the heading grammar with a title
    of two characters or more is a candidate. *)
Definition grammar_match_emits (raw : str) : Prop :=
  forall m, rmatch heading_pattern (strip raw) = Some m ->
    (2 <= length (strip (group 2 m)))%nat -> is_Some (heading_candidate raw).

(** Deduplication by exact string: two candidates with different numeral
    paths are both in the result. *)
Definition both_retained (max_level : nat) (texts : list str) : Prop :=
  forall c1 c2, c1 ∈ candidates texts -> c2 ∈ candidates texts ->
    number c1 <> number c2 ->
    number c1 ∈ number <$> collect_outline max_level texts
    /\ number c2 ∈ number <$> collect_outline max_level texts.

(** ** Documents for the examples *)

Definition paragraph (text : str) : node := Elem "p" [Text text].

(** A stand-in for the parser in examples: the whole file as one paragraph. *)
Definition one_paragraph (content : str) : soup := [paragraph content].

Definition intro_blocks : list str :=
  [utf8 "1 Introduction"; utf8 "1.1 Background"; utf8 "1.1.1 Sensor Placement";
   utf8 "2 Methods"; utf8 "2.1 Data Collection"].

Definition intro_doc : soup := map paragraph intro_blocks.

Definition intro_outline : list entry :=
  [mkEntry (utf8 "1") (utf8 "Introduction") 1 (utf8 "1 Introduction");
   mkEntry (utf8 "1.1") (utf8 "Background") 2 (utf8 "1.1 Background");
   mkEntry (utf8 "2") (utf8 "Methods") 1 (utf8 "2 Methods");
   mkEntry (utf8 "2.1") (utf8 "Data Collection") 2 (utf8 "2.1 Data Collection")].

Definition caption_text : str := utf8 "图1.1 Layout Diagram".

Definition caption_doc : soup :=
  [paragraph (utf8 "1 Introduction"); Elem "div" [paragraph caption_text]].

Definition long_text : str := utf8 "1.2 " ++ repeat_str (utf8 "a") 246.

Definition long_doc : soup := [paragraph (utf8 "1 Introduction"); paragraph long_text].

Definition nested_tables : soup := [Elem "table" [Elem "tr" [Elem "table" []]]].

Definition same_number_blocks : list str :=
  [utf8 "1 Introduction"; utf8 "1.0 Overview"; utf8 "2.1 Scope"; utf8 "2.01 Limits"].

Definition report_world : world :=
  mkWorld {[ utf8 "report.html" := utf8 "1 Introduction" ]} [].

Definition report_args : Args :=
  mkArgs (utf8 "report.html") 2 (utf8 "txt") None.

(** ** Further notions *)

(** The title of a heading, as the grammar takes it: one character or more,
    none of them a newline. *)
Definition title_text (s : str) : Prop :=
  s <> [] /\ Forall (fun c => c <> NL) s.

(** A run of digits and dots, as the caption test reads it. *)
Definition digits_or_dots (d : str) : Prop :=
  d <> [] /\ Forall (fun c => is_digit c || (c =? DOT)%N = true) d.

(** What the heading loop guarantees of an entry it records. *)
Record well_formed (e : entry) : Prop := mkWellFormed {
  wf_number : exists parts,
    parts <> [] /\ Forall digits parts /\ number e = join [DOT] parts
    /\ level e = length parts;
  wf_level : level e = (count_char DOT (number e) + 1)%nat;
  wf_title_length : (2 <= length (title e))%nat;
  wf_title_trimmed : strip (title e) = title e;
  wf_title_line : Forall (fun c => c <> NL) (title e);
  wf_full_text : exists sep rest,
    full_text e = number e ++ sep ++ rest /\ spaces sep;
  wf_full_text_trimmed : strip (full_text e) = full_text e
}.

(** The tags the four tag rules of the sanitizer remove. *)
Definition stripped_tags : list string :=
  ["table"; "img"; "script"; "style"; "head"; "meta"; "link"; "svg"; "canvas"].

(** The number of tags of the given names in a tree, nested ones included. *)
Fixpoint count_in (names : list string) (n : node) : nat :=
  match n with
  | Text _ => 0
  | Elem nm cs =>
      (if has_name names nm then 1 else 0)
      + (fix kids (cs : list node) : nat :=
           match cs with
           | [] => 0
           | c :: cs' => count_in names c + kids cs'
           end) cs
  end.

Fixpoint count_tags (names : list string) (t : soup) : nat :=
  match t with
  | [] => 0
  | n :: t' => count_in names n + count_tags names t'
  end.

Definition table_doc : soup :=
  [paragraph (utf8 "1 Introduction");
   Elem "table" [Elem "tr" [Elem "td" [paragraph (utf8 "2 Methods")]]]].

(** A document the sanitizer has nothing to do on: no tag of the tag rules,
    and no [p] or [div] on whose text a test of the caption loop holds. *)
Definition clean_document (t : soup) : Prop :=
  (forall p nm cs, node_at t p = Some (Elem nm cs) -> nm ∉ stripped_tags)
  /\ (forall p, paragraph_like t p -> ~ fires (strip (get_text t [] p))).

Definition SPACE : char := 0x20%N.
Definition HASH : char := 0x23%N.

(** [s.split("\n")]: the lines of a rendering. *)
Fixpoint split_lines (s : str) : list str :=
  match s with
  | [] => [[]]
  | c :: s' =>
      if (c =? NL)%N then [] :: split_lines s'
      else
        match split_lines s' with
        | l :: ls => (c :: l) :: ls
        | [] => [[c]]
        end
  end.

Definition COMMA : char := 0x2C%N.

(** Reading one character of a JSON string back: the left inverse of
    [json_escape] that shows that escaping loses nothing. *)
Definition unhex (h : char) : N :=
  (if h <? 0x3A then h - 0x30 else h - 0x61 + 10)%N.

Definition json_unescape (s : str) : option (char * str) :=
  match s with
  | [] => None
  | c :: r =>
      if (c =? BACKSLASH)%N then
        match r with
        | [] => None
        | x :: r' =>
            if (x =? 0x75)%N then
              match r' with
              | _ :: _ :: h1 :: h2 :: r'' => Some (16 * unhex h1 + unhex h2, r'')%N
              | _ => None
              end
            else if (x =? 0x6E)%N then Some (0x0A, r')%N
            else if (x =? 0x72)%N then Some (0x0D, r')%N
            else if (x =? 0x74)%N then Some (0x09, r')%N
            else if (x =? 0x62)%N then Some (0x08, r')%N
            else if (x =? 0x66)%N then Some (0x0C, r')%N
            else Some (x, r')
        end
      else Some (c, r)
  end.

(** What one pass of [extract_outline] prints before the outline: the
    counters of the sanitizer. *)
Definition cleaning_report (stats : CleanStats) : list str :=
  [utf8 "HTML 清理完成：";
   utf8 "  - 移除表格: " ++ str_of_nat (tables_removed stats) ++ utf8 " 个";
   utf8 "  - 移除图片: " ++ str_of_nat (images_removed stats) ++ utf8 " 个";
   utf8 "  - 移除脚本/样式: " ++ str_of_nat (scripts_removed stats) ++ utf8 " 个";
   utf8 "  - 移除图表标注: " ++ str_of_nat (captions_removed stats) ++ utf8 " 个";
   utf8 "  - 移除长文本段落: " ++ str_of_nat (long_paragraphs_removed stats) ++ utf8 " 个";
   []].

(** The events of one pass of [extract_outline] that reads [content] and
    is refused nothing. *)
Definition pass_events (html_parser : str -> soup) (html_file : str)
    (output_file : option str) (format : str) (max_level : nat) (content : str)
    : list event :=
  let soup := html_parser content in
  let text := render format (outline_of_soup max_level soup) in
  Read_ok html_file content
  :: (Printed <$> cleaning_report (clean_html_for_outline soup).2)
  ++ match truthy output_file with
     | Some f => [Wrote f text; Printed (utf8 "大纲已保存到: " ++ f)]
     | None => [Printed text]
     end.

(** The files [extract_outline] may open for writing. *)
Definition output_files (output_file : option str) : list str :=
  match truthy output_file with
  | Some f => [f]
  | None => []
  end.


(** The text nodes at and below a node, each with its path, in document
    order. *)
Fixpoint leaves (pre : path) (n : node) : list (path * str) :=
  match n with
  | Text s => [(pre, s)]
  | Elem _ cs =>
      (fix kids (i : nat) (cs : list node) : list (path * str) :=
         match cs with
         | [] => []
         | c :: cs' => leaves (pre ++ [i]) c ++ kids (S i) cs'
         end) 0%nat cs
  end.

Fixpoint kids_leaves (pre : path) (i : nat) (cs : list node) : list (path * str) :=
  match cs with
  | [] => []
  | c :: cs' => leaves (pre ++ [i]) c ++ kids_leaves pre (S i) cs'
  end.

(** The text nodes among [ls] that are still there, and their strings put
    together. *)
Definition live_leaves (lg : list path) (ls : list (path * str)) : list (path * str) :=
  filter (fun x => decomposed lg x.1 = false) ls.

Definition strings_of (ls : list (path * str)) : str := flat_map snd ls.

(** * Properties *)

(** ** The matcher against what a pattern matches *)

Lemma star_loop_sound (body : str -> caps -> cont -> option caps) r g k res :
  (forall s c k' res', body s c k' = Some res' ->
     exists x s' c', s = x ++ s' /\ matches r x s' /\ k' s' c' = Some res'
                     /\ (groupless r = true -> c' = c)) ->
  forall fuel s c, star_loop body g k fuel s c = Some res ->
    exists x s' c', s = x ++ s' /\ matches (Star g r) x s' /\ k s' c' = Some res
                    /\ (groupless r = true -> c' = c).
Proof.
  intros Hbody fuel. induction fuel as [|fuel IH]; intros s c Hrun; simpl in Hrun.
  - exists [], s, c. repeat split; [constructor | done].
  - assert (Hstop : k s c = Some res ->
      exists x s' c', s = x ++ s' /\ matches (Star g r) x s' /\ k s' c' = Some res
                      /\ (groupless r = true -> c' = c)).
    { intros Hk. exists [], s, c. repeat split; [constructor | done]. }
    assert (Hmore : body s c (fun s' c' =>
        if (length s' <? length s)%nat then star_loop body g k fuel s' c' else None)
        = Some res ->
      exists x s' c', s = x ++ s' /\ matches (Star g r) x s' /\ k s' c' = Some res
                      /\ (groupless r = true -> c' = c)).
    { intros Hb. apply Hbody in Hb as (x & s1 & c1 & -> & Hx & Hk & Hc).
      destruct (length s1 <? length (x ++ s1))%nat eqn:Hlen; [|done].
      apply IH in Hk as (y & s2 & c2 & -> & Hy & Hk & Hc').
      exists (x ++ y), s2, c2. rewrite <- app_assoc. repeat split; [|done|].
      - apply matches_star_more; [|done..].
        intros ->. apply Nat.ltb_lt in Hlen. simpl in Hlen. lia.
      - intros Hg. rewrite Hc', Hc; done. }
    destruct g; unfold orelse in Hrun.
    + destruct (body s c _) eqn:Hb; [injection Hrun as ->; by apply Hmore | by apply Hstop].
    + destruct (k s c) eqn:Hk; [injection Hrun as ->; by apply Hstop | by apply Hmore].
Qed.

Lemma run_sound r : forall s c k res,
  run r s c k = Some res ->
  exists x s' c', s = x ++ s' /\ matches r x s' /\ k s' c' = Some res
                  /\ (groupless r = true -> c' = c).
Proof.
  induction r as [p| |r1 IH1 r2 IH2|r1 IH1 r2 IH2|g r IH|i r IH|]; intros s c k res Hrun;
    simpl in Hrun.
  - destruct s as [|a s]; [done|]. destruct (p a) eqn:Hp; [|done].
    exists [a], s, c. repeat split; [by constructor | done].
  - exists [], s, c. repeat split; [constructor | done].
  - apply IH1 in Hrun as (x & s1 & c1 & -> & Hx & Hrun & Hc1).
    apply IH2 in Hrun as (y & s2 & c2 & -> & Hy & Hk & Hc2).
    exists (x ++ y), s2, c2. rewrite <- app_assoc. repeat split; [by constructor | done |].
    simpl. intros [? ?]%andb_prop. rewrite Hc2, Hc1; done.
  - unfold orelse in Hrun. destruct (run r1 s c k) eqn:H1.
    + injection Hrun as ->. apply IH1 in H1 as (x & s1 & c1 & -> & Hx & Hk & Hc).
      exists x, s1, c1. repeat split; [by apply matches_alt_l | done |].
      simpl. intros [? ?]%andb_prop. auto.
    + apply IH2 in Hrun as (x & s1 & c1 & -> & Hx & Hk & Hc).
      exists x, s1, c1. repeat split; [by apply matches_alt_r | done |].
      simpl. intros [? ?]%andb_prop. auto.
  - eapply star_loop_sound in Hrun; [exact Hrun | exact IH].
  - apply IH in Hrun as (x & s1 & c1 & -> & Hx & Hk & Hc).
    exists x, s1, ((i, take (length (x ++ s1) - length s1) (x ++ s1)) :: c1).
    repeat split; [by constructor | done | done].
  - destruct s as [|a [|b s]].
    + exists [], [], c. repeat split; [constructor; by left | done].
    + destruct (a =? NL)%N eqn:Ha; [|done]. apply N.eqb_eq in Ha as ->.
      exists [], [NL], c. repeat split; [constructor; by right | done].
    + done.
Qed.

Lemma matches_chr_inv (p : char -> bool) x rest :
  matches (Chr p) x rest -> exists a, x = [a] /\ p a = true.
Proof. inversion 1; subst; eauto. Qed.

Lemma matches_eps_inv x rest : matches Eps x rest -> x = [].
Proof. by inversion 1. Qed.

Lemma matches_seq_inv r1 r2 z rest :
  matches (Seq r1 r2) z rest ->
  exists x y, z = x ++ y /\ matches r1 x (y ++ rest) /\ matches r2 y rest.
Proof. inversion 1; subst; eauto. Qed.

Lemma matches_alt_inv r1 r2 x rest :
  matches (Alt r1 r2) x rest -> matches r1 x rest \/ matches r2 x rest.
Proof. inversion 1; subst; eauto. Qed.

Lemma matches_group_inv i r x rest : matches (Group i r) x rest -> matches r x rest.
Proof. by inversion 1. Qed.

Lemma matches_eos_inv x rest :
  matches Eos x rest -> x = [] /\ (rest = [] \/ rest = [NL]).
Proof. by inversion 1. Qed.

Lemma run_group_sound i r s c k res :
  groupless r = true ->
  run (Group i r) s c k = Some res ->
  exists x s', s = x ++ s' /\ matches r x s' /\ k s' ((i, x) :: c) = Some res.
Proof.
  intros Hg Hrun. simpl in Hrun.
  apply run_sound in Hrun as (x & s1 & c1 & -> & Hx & Hk & Hc).
  rewrite (Hc Hg) in Hk. exists x, s1. repeat split; [done|].
  rewrite length_app, Nat.add_sub, take_app_length in Hk. done.
Qed.

Lemma star_loop_complete (body : str -> caps -> cont -> option caps) r g k :
  (forall x rest, matches r x rest -> forall c k',
     (forall c', is_Some (k' rest c')) -> is_Some (body (x ++ rest) c k')) ->
  forall x rest, matches (Star g r) x rest ->
    (forall c', is_Some (k rest c')) ->
    forall fuel c, length (x ++ rest) <= fuel ->
      is_Some (star_loop body g k fuel (x ++ rest) c).
Proof.
  intros Hbody x rest H. remember (Star g r) as R eqn:HR.
  induction H as [| | | | | g0 r0 rest | g0 r0 x y rest Hne Hx _ Hy IH | |];
    try discriminate; injection HR as -> ->.
  - intros Hk fuel c _. destruct fuel as [|fuel]; simpl; [apply Hk|].
    destruct (Hk c) as [v Hv].
    destruct g; unfold orelse; [destruct (body _ _ _); eauto | rewrite Hv; eauto].
  - intros Hk fuel c Hf. rewrite <- app_assoc in *.
    destruct fuel as [|fuel].
    { destruct x; [done | simpl in Hf; lia]. }
    simpl.
    assert (Hagain : is_Some (body (x ++ y ++ rest) c (fun s' c' =>
      if (length s' <? length (x ++ y ++ rest))%nat
      then star_loop body g k fuel s' c' else None))).
    { apply Hbody; [done|]. intros c'.
      assert (Hlt : (length (y ++ rest) <? length (x ++ y ++ rest))%nat = true).
      { apply Nat.ltb_lt. rewrite (length_app x). destruct x; [done | simpl; lia]. }
      rewrite Hlt. apply IH; [done | done |].
      rewrite (length_app x) in Hf. destruct x; [done | simpl in Hf; lia]. }
    destruct Hagain as [v Hv].
    destruct g; unfold orelse; [rewrite Hv; eauto | destruct (k _ _); eauto].
Qed.

Lemma run_complete r : forall x rest, matches r x rest ->
  forall c k, (forall c', is_Some (k rest c')) -> is_Some (run r (x ++ rest) c k).
Proof.
  induction r as [p| |r1 IH1 r2 IH2|r1 IH1 r2 IH2|g r IH|i r IH|];
    intros x rest H c k Hk.
  - apply matches_chr_inv in H as (a & -> & Hp). simpl. by rewrite Hp.
  - apply matches_eps_inv in H as ->. apply Hk.
  - apply matches_seq_inv in H as (x1 & x2 & -> & H1 & H2). simpl.
    rewrite <- app_assoc. apply IH1; [done|]. intros c'. by apply IH2.
  - simpl. unfold orelse. apply matches_alt_inv in H as [H | H].
    + destruct (IH1 _ _ H c k Hk) as [v ->]. eauto.
    + destruct (run r1 _ _ _); [eauto|]. by apply IH2.
  - simpl. eapply star_loop_complete; [exact IH | exact H | exact Hk | done].
  - apply matches_group_inv in H. simpl. apply IH; [done|]. intros c'. apply Hk.
  - apply matches_eos_inv in H as (-> & [-> | ->]); simpl; apply Hk.
Qed.

Lemma rmatch_complete r x rest : matches r x rest -> is_Some (rmatch r (x ++ rest)).
Proof. intros H. apply run_complete; [done|]. intros c'. eauto. Qed.

(** The lazy star takes the shortest run of characters after which the
    rest of the pattern succeeds. *)
Lemma lazy_star_first (p : char -> bool) k res : forall fuel s c,
  star_loop (run (Chr p)) false k fuel s c = Some res ->
  exists x s', s = x ++ s' /\ Forall (fun a => p a = true) x /\ k s' c = Some res
    /\ forall x1 x2, x = x1 ++ x2 -> x2 <> [] -> k (x2 ++ s') c = None.
Proof.
  induction fuel as [|fuel IH]; intros s c Hrun; simpl in Hrun.
  - exists [], s. repeat split; [constructor | done |].
    intros x1 x2 Hx Hne. by destruct x1, x2.
  - unfold orelse in Hrun. destruct (k s c) eqn:Hk.
    + injection Hrun as ->. exists [], s. repeat split; [constructor | done |].
      intros x1 x2 Hx Hne. by destruct x1, x2.
    + destruct s as [|a s]; [done|]. destruct (p a) eqn:Hp; [|done].
      assert (Hlt : (length s <? length (a :: s))%nat = true)
        by (apply Nat.ltb_lt; simpl; lia).
      rewrite Hlt in Hrun. apply IH in Hrun as (x & s' & -> & Hall & Hks & Hmin).
      exists (a :: x), s'. repeat split; [by constructor | done |].
      intros x1 x2 Hx Hne. destruct x1 as [|b x1].
      * simpl in Hx. subst x2. exact Hk.
      * injection Hx as -> Hx. by eapply Hmin.
Qed.

(** What the pieces of the patterns match. *)
Lemma matches_star_chr g (p : char -> bool) x rest :
  matches (Star g (Chr p)) x rest -> Forall (fun a => p a = true) x.
Proof.
  intros H. remember (Star g (Chr p)) as R eqn:HR.
  induction H as [| | | | | | g0 r0 x y rest Hne Hx _ Hy IH | |];
    try discriminate; injection HR as -> ->; [constructor|].
  apply Forall_app. split; [|auto].
  apply matches_chr_inv in Hx as (a & -> & Hp). by repeat constructor.
Qed.

Lemma matches_plus_chr g (p : char -> bool) x rest :
  matches (Plus g (Chr p)) x rest -> x <> [] /\ Forall (fun a => p a = true) x.
Proof.
  intros H. apply matches_seq_inv in H as (x1 & x2 & -> & H1 & H2).
  apply matches_chr_inv in H1 as (a & -> & Hp).
  split; [done|]. constructor; [done|]. by eapply matches_star_chr.
Qed.

Lemma star_chr_matches g (p : char -> bool) x rest :
  Forall (fun a => p a = true) x -> matches (Star g (Chr p)) x rest.
Proof.
  induction 1 as [|a x Ha _ IH]; [constructor|].
  change (a :: x) with ([a] ++ x). apply matches_star_more; [done | by constructor | done].
Qed.

Lemma plus_chr_matches g (p : char -> bool) x rest :
  x <> [] -> Forall (fun a => p a = true) x -> matches (Plus g (Chr p)) x rest.
Proof.
  intros Hne Hall. destruct x as [|a x]; [done|]. inversion Hall; subst.
  change (a :: x) with ([a] ++ x). apply matches_seq; [by constructor|].
  by apply star_chr_matches.
Qed.

(** ** Strings *)

Lemma lstrip_head s c s' : lstrip s = c :: s' -> is_space c = false.
Proof.
  induction s as [|a s IH]; simpl; [done|].
  destruct (is_space a) eqn:Ha; [done|]. by intros [= <- _].
Qed.

Lemma strip_last s l c : strip s = l ++ [c] -> is_space c = false.
Proof.
  unfold strip, rstrip. intros H.
  apply (f_equal (@rev char)) in H. rewrite rev_involutive, rev_unit in H.
  by eapply lstrip_head.
Qed.

Lemma join_flat (sep : str) l ls :
  join sep (l :: ls) = l ++ flat_map (fun p => sep ++ p) ls.
Proof.
  revert l. induction ls as [|l' ls IH]; intros l; [by rewrite app_nil_r|].
  change (join sep (l :: l' :: ls)) with (l ++ sep ++ join sep (l' :: ls)).
  rewrite IH. simpl. by rewrite <- app_assoc.
Qed.

Lemma matches_dots g x rest :
  matches (Star g (Seq (Chr (N.eqb DOT)) (Plus true digit))) x rest ->
  exists parts, Forall digits parts /\ x = flat_map (fun p => [DOT] ++ p) parts.
Proof.
  intros H. remember (Star g (Seq (Chr (N.eqb DOT)) (Plus true digit))) as R eqn:HR.
  induction H as [| | | | | | g0 r0 x y rest Hne Hx _ Hy IH | |];
    try discriminate; injection HR as -> ->.
  - exists []. by split.
  - destruct (IH eq_refl) as (parts & Hparts & ->).
    apply matches_seq_inv in Hx as (x1 & d & -> & H1 & Hd).
    apply matches_chr_inv in H1 as (a & -> & ->%N.eqb_eq).
    apply matches_plus_chr in Hd.
    exists (d :: parts). split; [by constructor|]. done.
Qed.

Lemma matches_numeral n rest : matches numeral_re n rest -> dotted_numeral n.
Proof.
  intros H. apply matches_seq_inv in H as (d & x & -> & Hd & Hx).
  apply matches_plus_chr in Hd. apply matches_dots in Hx as (parts & Hparts & ->).
  exists (d :: parts). split; [done|]. split; [by constructor|]. by rewrite join_flat.
Qed.

Lemma page_number_matches p rest : page_number p -> matches page_re p rest.
Proof.
  intros (w & d & -> & [Hw1 Hw2] & [Hd1 Hd2]).
  apply matches_alt_l, matches_seq; by apply plus_chr_matches.
Qed.

Lemma matches_page p rest : matches page_re p rest -> p = [] \/ page_number p.
Proof.
  intros [H | H]%matches_alt_inv; [right | left; by apply matches_eps_inv in H].
  apply matches_seq_inv in H as (w & d & -> & Hw & Hd).
  apply matches_plus_chr in Hw, Hd. by exists w, d.
Qed.

(** ** The shape of a heading match *)

Lemma run_seq r1 r2 s c k :
  run (Seq r1 r2) s c k = run r1 s c (fun s' c' => run r2 s' c' k).
Proof. done. Qed.

Lemma run_star g r s c k :
  run (Star g r) s c k = star_loop (run r) g k (length s) s c.
Proof. done. Qed.

Lemma run_chr (p : char -> bool) s c k :
  run (Chr p) s c k =
  match s with a :: s' => if p a then k s' c else None | [] => None end.
Proof. done. Qed.

Lemma run_group i r s c k :
  run (Group i r) s c k =
  run r s c (fun s' c' => k s' ((i, take (length s - length s') s) :: c')).
Proof. done. Qed.

Lemma heading_shape text m :
  rmatch heading_pattern text = Some m ->
  exists sep page tail,
    text = group 1 m ++ sep ++ group 2 m ++ page ++ tail
    /\ dotted_numeral (group 1 m) /\ spaces sep
    /\ group 2 m <> [] /\ Forall (fun c => c <> NL) (group 2 m)
    /\ (page = [] \/ page_number page) /\ (tail = [] \/ tail = [NL])
    /\ (forall x p, group 2 m ++ page = x ++ p -> x <> [] -> page_number p ->
          length (group 2 m) <= length x).
Proof.
  unfold rmatch, heading_pattern. intros H.
  rewrite run_seq in H.
  apply run_group_sound in H as (number & s1 & -> & Hnum & H); [|done].
  rewrite run_seq in H.
  apply run_sound in H as (sep & s2 & c2 & -> & Hsep & H & Hc2).
  rewrite (Hc2 eq_refl) in H. clear c2 Hc2.
  rewrite run_seq, run_group in H. unfold Plus at 1 in H. rewrite run_seq in H.
  unfold any at 1 in H. rewrite run_chr in H.
  destruct s2 as [|a s2]; [done|].
  destruct (negb (a =? NL)%N) eqn:Ha; [|done].
  rewrite run_star in H. unfold any in H.
  apply lazy_star_first in H as (x & s3 & -> & Hx & H & Hmin).
  assert (Hg2 : forall u, take (length (a :: x ++ u) - length u) (a :: x ++ u) = a :: x).
  { intros u. change (a :: x ++ u) with ((a :: x) ++ u).
    by rewrite length_app, Nat.add_sub, take_app_length. }
  rewrite Hg2 in H.
  apply run_sound in H as (y & tail & c4 & -> & Hy & H & Hc4).
  rewrite (Hc4 eq_refl) in H. clear c4 Hc4. injection H as <-.
  apply matches_seq_inv in Hy as (page & e & -> & Hpage & He).
  apply matches_eos_inv in He as (-> & Htail). rewrite app_nil_r in *.
  exists sep, page, tail. simpl.
  split; [done|]. split; [by eapply matches_numeral|].
  split; [by eapply matches_plus_chr|].
  split; [done|].
  split. { constructor. - intros ->. done. - eapply Forall_impl; [exact Hx|].
           simpl. intros b Hb ->. done. }
  split; [by eapply matches_page|]. split; [done|].
  intros x' p Heq Hne Hp.
  destruct (decide (length (a :: x) <= length x')) as [|Hlt]; [done|exfalso].
  change (a :: x ++ page) with ((a :: x) ++ page) in Heq.
  apply app_eq_inv in Heq as [(k & Hk1 & Hk2) | (k & Hk1 & Hk2)].
  2: { rewrite Hk1, length_app in Hlt. lia. }
  destruct x' as [|a' x1]; [done|]. injection Hk1 as <- ->.
  assert (Hk : k <> []).
  { intros ->. rewrite app_nil_r in Hlt. simpl in Hlt. lia. }
  specialize (Hmin x1 k eq_refl Hk). cbv beta in Hmin.
  assert (Hsome : forall c, is_Some (run (Seq page_re Eos) ((k ++ page) ++ tail)
                    c (fun _ c' => Some c'))).
  { intros c. apply run_complete; [|eauto].
    rewrite <- (app_nil_r (k ++ page)). apply matches_seq.
    - rewrite <- Hk2. by apply page_number_matches.
    - by constructor. }
  match type of Hmin with
  | run _ _ ?c _ = None => destruct (Hsome c) as [v Hv]
  end.
  rewrite <- app_assoc in Hv. congruence.
Qed.

(** ** The heading loop as matcher and accumulator *)

Lemma outline_step_candidate max_level acc raw :
  outline_step max_level acc raw =
  match heading_candidate raw with
  | None => acc
  | Some c =>
      if bool_decide (number c ∈ acc.2) then acc
      else if (level c <=? max_level)%nat
      then (acc.1 ++ [c], {[ number c ]} ∪ acc.2) else acc
  end.
Proof.
  unfold outline_step, heading_candidate.
  destruct (strip raw) as [|a text]; [done|].
  destruct (rmatch noise_pattern (a :: text)); [done|].
  destruct (rmatch heading_pattern (a :: text)) as [m|]; [|done].
  by destruct (bool_decide (strip (group 2 m) = []) || (length (strip (group 2 m)) <? 2)%nat).
Qed.

Lemma candidate_level raw c :
  heading_candidate raw = Some c -> level c = (count_char DOT (number c) + 1)%nat.
Proof.
  unfold heading_candidate.
  destruct (strip raw) as [|a text]; [done|].
  destruct (rmatch noise_pattern (a :: text)); [done|].
  destruct (rmatch heading_pattern (a :: text)) as [m|]; [|done].
  destruct (bool_decide (strip (group 2 m) = []) || (length (strip (group 2 m)) <? 2)%nat);
    [done|]. by intros [= <-].
Qed.

Lemma candidates_level texts c :
  c ∈ candidates texts -> level c = (count_char DOT (number c) + 1)%nat.
Proof.
  unfold candidates. rewrite list_elem_of_omap. intros (raw & _ & H).
  by eapply candidate_level.
Qed.

Lemma fold_outline max_level texts : forall out seen,
  (fold_left (outline_step max_level) texts (out, seen)).1
  = out ++ accumulate max_level seen (candidates texts).
Proof.
  induction texts as [|raw texts IH]; intros out seen; simpl.
  { by rewrite app_nil_r. }
  rewrite outline_step_candidate. unfold candidates in *. simpl.
  destruct (heading_candidate raw) as [c|]; simpl; [|apply IH].
  destruct (bool_decide (number c ∈ seen)) eqn:Hseen.
  - rewrite IH. destruct (max_level <? level c)%nat; done.
  - destruct (level c <=? max_level)%nat eqn:Hlv.
    + apply Nat.leb_le in Hlv.
      assert ((max_level <? level c)%nat = false) as -> by (apply Nat.ltb_ge; lia).
      rewrite IH. by rewrite <- app_assoc.
    + apply Nat.leb_gt in Hlv.
      assert ((max_level <? level c)%nat = true) as -> by (apply Nat.ltb_lt; lia).
      apply IH.
Qed.

Lemma collect_accumulate max_level texts :
  collect_outline max_level texts = accumulate max_level ∅ (candidates texts).
Proof. unfold collect_outline. by rewrite fold_outline. Qed.

Lemma accumulate_sublist max_level cs : forall seen,
  accumulate max_level seen cs `sublist_of` cs.
Proof.
  induction cs as [|c cs IH]; intros seen; simpl; [done|].
  destruct (max_level <? level c)%nat; [by apply sublist_cons|].
  destruct (bool_decide (number c ∈ seen)); [by apply sublist_cons|].
  by apply sublist_skip.
Qed.

Lemma accumulate_level max_level cs : forall seen e,
  e ∈ accumulate max_level seen cs -> level e <= max_level.
Proof.
  induction cs as [|c cs IH]; intros seen e; simpl; [by intros ?%elem_of_nil|].
  destruct (max_level <? level c)%nat eqn:Hlv; [apply IH|].
  destruct (bool_decide (number c ∈ seen)); [apply IH|].
  intros [-> | H]%elem_of_cons; [by apply Nat.ltb_ge in Hlv | by eapply IH].
Qed.

Lemma accumulate_fresh max_level cs : forall seen e,
  e ∈ accumulate max_level seen cs -> number e ∉ seen.
Proof.
  induction cs as [|c cs IH]; intros seen e; simpl; [by intros ?%elem_of_nil|].
  destruct (max_level <? level c)%nat; [apply IH|].
  destruct (bool_decide (number c ∈ seen)) eqn:Hseen; [apply IH|].
  apply bool_decide_eq_false in Hseen.
  intros [-> | H]%elem_of_cons; [done|]. apply IH in H. set_solver.
Qed.

Lemma accumulate_NoDup max_level cs : forall seen,
  NoDup (number <$> accumulate max_level seen cs).
Proof.
  induction cs as [|c cs IH]; intros seen; simpl; [constructor|].
  destruct (max_level <? level c)%nat; [apply IH|].
  destruct (bool_decide (number c ∈ seen)); [apply IH|].
  rewrite fmap_cons. constructor; [|apply IH].
  intros (e & Hn & He)%list_elem_of_fmap. apply accumulate_fresh in He. set_solver.
Qed.

Lemma accumulate_keeps max_level cs : forall seen c,
  c ∈ cs -> level c <= max_level ->
  number c ∈ seen \/ number c ∈ number <$> accumulate max_level seen cs.
Proof.
  induction cs as [|c' cs IH]; intros seen c; [by intros ?%elem_of_nil|].
  intros Hin Hlv. simpl.
  assert (Htail : c ∈ cs -> number c ∈ seen \/
    number c ∈ number <$>
      (if (max_level <? level c')%nat then accumulate max_level seen cs
       else if bool_decide (number c' ∈ seen) then accumulate max_level seen cs
       else c' :: accumulate max_level ({[number c']} ∪ seen) cs)).
  { intros Hc. destruct (max_level <? level c')%nat; [by apply IH|].
    destruct (bool_decide (number c' ∈ seen)); [by apply IH|].
    rewrite fmap_cons.
    destruct (IH ({[number c']} ∪ seen) c Hc Hlv) as [H | H];
      [|right; by apply elem_of_cons; right].
    apply elem_of_union in H as [->%elem_of_singleton | H]; [|by left].
    right. apply elem_of_cons. by left. }
  apply elem_of_cons in Hin as [-> | Hin]; [|by apply Htail].
  assert ((max_level <? level c')%nat = false) as -> by (apply Nat.ltb_ge; lia).
  destruct (bool_decide (number c' ∈ seen)) eqn:Hseen.
  - left. by apply bool_decide_eq_true in Hseen.
  - right. rewrite fmap_cons. apply elem_of_cons. by left.
Qed.

Lemma accumulate_seen_filter max_level n cs seen :
  n ∈ seen -> filter (fun e => number e = n) (accumulate max_level seen cs) = [].
Proof.
  intros Hn. apply elem_of_nil_inv. intros e [He1 He2]%list_elem_of_filter.
  apply accumulate_fresh in He2. congruence.
Qed.

Lemma accumulate_before max_level n rest : forall l1 seen,
  (forall c, c ∈ l1 -> number c <> n) -> n ∉ seen ->
  exists A seen',
    accumulate max_level seen (l1 ++ rest) = A ++ accumulate max_level seen' rest
    /\ filter (fun e => number e = n) A = [] /\ n ∉ seen'.
Proof.
  induction l1 as [|c l1 IH]; intros seen Hl1 Hn.
  { by exists [], seen. }
  assert (Hc : number c <> n) by (apply Hl1; left).
  assert (Hl1' : forall c', c' ∈ l1 -> number c' <> n) by (intros; apply Hl1; by right).
  simpl. destruct (max_level <? level c)%nat; [by apply IH|].
  destruct (bool_decide (number c ∈ seen)); [by apply IH|].
  destruct (IH ({[number c]} ∪ seen) Hl1') as (A & seen' & -> & HA & Hn').
  { intros [H%elem_of_singleton | H]%elem_of_union; [by apply Hc | by apply Hn]. }
  exists (c :: A), seen'. split; [done|]. split; [|done].
  rewrite filter_cons. by destruct (decide (number c = n)).
Qed.

Lemma accumulate_first max_level cs l1 c1 l2 :
  (forall c, c ∈ cs -> level c = (count_char DOT (number c) + 1)%nat) ->
  cs = l1 ++ c1 :: l2 ->
  (forall c, c ∈ l1 -> number c <> number c1) ->
  filter (fun e => number e = number c1) (accumulate max_level ∅ cs)
  = if (level c1 <=? max_level)%nat then [c1] else [].
Proof.
  intros Hwf -> Hl1.
  destruct (accumulate_before max_level (number c1) (c1 :: l2) l1 ∅ Hl1)
    as (A & seen & -> & HA & Hn); [set_solver|].
  rewrite filter_app, HA. simpl.
  destruct (level c1 <=? max_level)%nat eqn:Hlv.
  - apply Nat.leb_le in Hlv.
    assert ((max_level <? level c1)%nat = false) as -> by (apply Nat.ltb_ge; lia).
    rewrite bool_decide_eq_false_2 by done.
    rewrite filter_cons. destruct (decide (number c1 = number c1)); [|done].
    rewrite accumulate_seen_filter; [done | set_solver].
  - apply Nat.leb_gt in Hlv.
    assert ((max_level <? level c1)%nat = true) as -> by (apply Nat.ltb_lt; lia).
    apply elem_of_nil_inv. intros e [He1 He2]%list_elem_of_filter.
    pose proof (accumulate_level _ _ _ _ He2) as Hle.
    assert (He : e ∈ l2) by (eapply elem_of_sublist; [exact He2 | apply accumulate_sublist]).
    rewrite (Hwf e), He1, <- (Hwf c1) in Hle; [lia | | ]; set_solver.
Qed.

(** ** The document tree *)


Lemma is_prefix_spec q p : is_prefix q p = true <-> q `prefix_of` p.
Proof.
  revert p. induction q as [|x q IH]; intros p; simpl.
  - split; [intros _; apply prefix_nil | done].
  - destruct p as [|y p].
    + split; [done | intros H%prefix_nil_inv; done].
    + rewrite andb_true_iff, Nat.eqb_eq, IH. split.
      * intros [-> H]. by apply prefix_cons.
      * intros H. split; [by eapply prefix_cons_inv_1 | by eapply prefix_cons_inv_2].
Qed.

Lemma decomposed_true lg p :
  decomposed lg p = true <-> exists q, q ∈ lg /\ q `prefix_of` p.
Proof.
  unfold decomposed. rewrite existsb_exists. split.
  - intros (q & Hq & H). exists q. by rewrite list_elem_of_In, <- is_prefix_spec.
  - intros (q & Hq & H). exists q. by rewrite <- list_elem_of_In, is_prefix_spec.
Qed.

Lemma decomposed_false lg p :
  decomposed lg p = false <-> forall q, q ∈ lg -> ~ q `prefix_of` p.
Proof.
  rewrite <- not_true_iff_false, decomposed_true. split.
  - intros H q Hq Hpre. apply H. by exists q.
  - intros H (q & Hq & Hpre). by eapply H.
Qed.

Lemma decomposed_app lg lg' p :
  decomposed (lg ++ lg') p = decomposed lg p || decomposed lg' p.
Proof. unfold decomposed. apply existsb_app. Qed.

Lemma decomposed_self lg p : decomposed (decompose lg p) p = true.
Proof.
  apply decomposed_true. exists p. split; [|done].
  unfold decompose. apply elem_of_app. right. by apply list_elem_of_singleton.
Qed.

Lemma decomposed_below lg p sfx :
  decomposed lg p = true -> decomposed lg (p ++ sfx) = true.
Proof.
  rewrite !decomposed_true. intros (q & Hq & H). exists q. split; [done|].
  by apply prefix_app_r.
Qed.

Lemma node_text_elem lg pre nm cs :
  node_text lg pre (Elem nm cs) =
  if decomposed lg pre then [] else kids_text lg pre 0 cs.
Proof.
  simpl. destruct (decomposed lg pre); [done|].
  generalize 0. induction cs as [|c cs IH]; intros i; [done|].
  simpl. by rewrite IH.
Qed.

Lemma find_in_elem lg names pre nm cs :
  find_in lg names pre (Elem nm cs) =
  if decomposed lg pre then []
  else (if has_name names nm then [pre] else []) ++ find_kids lg names pre 0 cs.
Proof.
  simpl. destruct (decomposed lg pre); [done|]. f_equal.
  generalize 0. induction cs as [|c cs IH]; intros i; [done|].
  simpl. by rewrite IH.
Qed.

Lemma node_text_dead lg pre n : decomposed lg pre = true -> node_text lg pre n = [].
Proof. intros H. destruct n; simpl; by rewrite H. Qed.

Lemma get_text_dead t lg p : decomposed lg p = true -> get_text t lg p = [].
Proof.
  intros H. unfold get_text. destruct (node_at t p); [|done]. by apply node_text_dead.
Qed.

(** The text below a tag depends on the log only through the tags at or
    below it. *)
Lemma node_text_stable lg lg' n : forall pre,
  (forall sfx, decomposed lg' (pre ++ sfx) = decomposed lg (pre ++ sfx)) ->
  node_text lg' pre n = node_text lg pre n.
Proof.
  induction n as [s | nm cs IH] using node_ind; intros pre H.
  - simpl. specialize (H []). rewrite app_nil_r in H. by rewrite H.
  - rewrite !node_text_elem. pose proof (H []) as H0. rewrite app_nil_r in H0.
    rewrite H0. destruct (decomposed lg pre); [done|].
    generalize 0. induction IH as [|c cs Hc _ IHcs]; intros i; simpl; [done|].
    rewrite Hc, IHcs; [done|]. intros sfx. rewrite <- app_assoc. apply H.
Qed.

Lemma get_text_stable t lg lg' p :
  (forall sfx, decomposed lg' (p ++ sfx) = decomposed lg (p ++ sfx)) ->
  get_text t lg' p = get_text t lg p.
Proof.
  intros H. unfold get_text. destruct (node_at t p); [|done]. by apply node_text_stable.
Qed.

(** ** What [find_all] lists: live tags, in document order *)

Lemma find_in_spec lg names n : forall pre p,
  p ∈ find_in lg names pre n -> pre `prefix_of` p /\ decomposed lg p = false.
Proof.
  induction n as [s | nm cs IH] using node_ind; intros pre p.
  - simpl. destruct (decomposed lg pre); by intros ?%elem_of_nil.
  - rewrite find_in_elem. destruct (decomposed lg pre) eqn:Hpre; [by intros ?%elem_of_nil|].
    intros [Hp | Hp]%elem_of_app.
    + destruct (has_name names nm); [|by apply elem_of_nil in Hp].
      apply list_elem_of_singleton in Hp as ->. done.
    + revert Hp. generalize 0.
      induction IH as [|c cs Hc _ IHcs]; intros i; simpl; [by intros ?%elem_of_nil|].
      intros [Hp | Hp]%elem_of_app; [|by eapply IHcs].
      apply Hc in Hp as [Hp1 Hp2]. split; [|done].
      by eapply prefix_app_l.
Qed.

Lemma find_in_prefix lg names pre n p :
  p ∈ find_in lg names pre n -> pre `prefix_of` p.
Proof. intros H. by apply find_in_spec in H as [? ?]. Qed.

Lemma find_in_live lg names pre n p :
  p ∈ find_in lg names pre n -> decomposed lg p = false.
Proof. intros H. by apply find_in_spec in H as [? ?]. Qed.

Lemma find_kids_shape lg names pre cs : forall i p,
  p ∈ find_kids lg names pre i cs ->
  decomposed lg p = false /\ exists j, i <= j /\ (pre ++ [j]) `prefix_of` p.
Proof.
  induction cs as [|c cs IH]; intros i p; simpl; [by intros ?%elem_of_nil|].
  intros [Hp | Hp]%elem_of_app.
  - split; [by eapply find_in_live|]. exists i. split; [done|]. by eapply find_in_prefix.
  - apply IH in Hp as (? & j & ? & ?). split; [done|]. exists j. split; [lia | done].
Qed.

Lemma ancestors_first_nil : ancestors_first [].
Proof. intros L1 p L2 q H. by destruct L1. Qed.

Lemma ancestors_first_app A B :
  ancestors_first A -> ancestors_first B ->
  (forall q p, q ∈ A -> p ∈ B -> ~ p `prefix_of` q) ->
  ancestors_first (A ++ B).
Proof.
  intros HA HB HAB L1 p L2 q Heq Hq.
  apply app_eq_inv in Heq as [(k & HA' & Hk) | (k & -> & ->)].
  - destruct k as [|p' k]; simpl in Hk.
    + subst B. rewrite app_nil_r in HA'. subst L1. apply HAB; [done | by left].
    + injection Hk as <- ->. by eapply HA.
  - apply elem_of_app in Hq as [Hq | Hq].
    + apply HAB; [done|]. apply elem_of_app. right. by left.
    + by eapply HB.
Qed.

Lemma prefix_snoc_same (pre : path) i j q :
  (pre ++ [i]) `prefix_of` q -> (pre ++ [j]) `prefix_of` q -> i = j.
Proof.
  intros [k1 ->] [k2 H]. rewrite <- !app_assoc in H.
  apply app_inv_head in H. by injection H.
Qed.

Lemma find_in_ancestors_first lg names n : forall pre,
  ancestors_first (find_in lg names pre n).
Proof.
  induction n as [s | nm cs IH] using node_ind; intros pre.
  - simpl. destruct (decomposed lg pre); apply ancestors_first_nil.
  - rewrite find_in_elem. destruct (decomposed lg pre); [apply ancestors_first_nil|].
    apply ancestors_first_app.
    + destruct (has_name names nm); [|apply ancestors_first_nil].
      intros L1 p L2 q H Hq. destruct L1 as [|? [|? ?]]; try done.
      by apply elem_of_nil in Hq.
    + generalize 0. induction IH as [|c cs Hc _ IHcs]; intros i; simpl;
        [apply ancestors_first_nil|].
      apply ancestors_first_app; [apply Hc | apply IHcs |].
      intros q p Hq Hp Hpq. apply find_in_prefix in Hq.
      apply find_kids_shape in Hp as (_ & j & Hj & Hp).
      assert (i = j); [|lia].
      eapply prefix_snoc_same; [exact Hq|]. by etrans.
    + intros q p Hq Hp Hpq. destruct (has_name names nm); [|by apply elem_of_nil in Hq].
      apply list_elem_of_singleton in Hq as ->.
      apply find_kids_shape in Hp as (_ & j & _ & Hp).
      apply (prefix_snoc_not pre j). by etrans.
Qed.

Lemma find_kids_ancestors_first lg names pre cs : forall i,
  ancestors_first (find_kids lg names pre i cs).
Proof.
  induction cs as [|c cs IH]; intros i; simpl; [apply ancestors_first_nil|].
  apply ancestors_first_app; [apply find_in_ancestors_first | apply IH |].
  intros q p Hq Hp Hpq. apply find_in_prefix in Hq.
  apply find_kids_shape in Hp as (_ & j & Hj & Hp).
  assert (i = j); [|lia].
  eapply prefix_snoc_same; [exact Hq|]. by etrans.
Qed.

Lemma find_all_live t lg names p :
  p ∈ find_all t lg names -> decomposed lg p = false.
Proof. intros H. by apply find_kids_shape in H as [? ?]. Qed.

Lemma find_all_ancestors_first t lg names : ancestors_first (find_all t lg names).
Proof. apply find_kids_ancestors_first. Qed.

(** And it lists every tag of the wanted names that is still there. *)
Lemma find_kids_lists lg names pre cs : forall i k c q,
  cs !! k = Some c ->
  q ∈ find_in lg names (pre ++ [i + k]) c -> q ∈ find_kids lg names pre i cs.
Proof.
  induction cs as [|c' cs IH]; intros i k c q Hk Hq; [done|].
  simpl. apply elem_of_app. destruct k as [|k]; simpl in Hk.
  - injection Hk as ->. left. by rewrite Nat.add_0_r in Hq.
  - right. apply (IH (S i) k c); [done|].
    by replace (S i + k) with (i + S k) by lia.
Qed.

Lemma find_in_lists lg names sfx : forall n pre nm cs,
  sub_at n sfx = Some (Elem nm cs) -> has_name names nm = true ->
  decomposed lg (pre ++ sfx) = false ->
  pre ++ sfx ∈ find_in lg names pre n.
Proof.
  induction sfx as [|i sfx IH]; intros n pre nm cs Hn Hnm Hlive.
  - simpl in Hn. injection Hn as ->. rewrite app_nil_r in *.
    rewrite find_in_elem, Hlive, Hnm. by left.
  - simpl in Hn. destruct n as [s | nm0 cs0]; [done|].
    destruct (cs0 !! i) as [c|] eqn:Hc; [|done].
    assert (Hpre : decomposed lg pre = false).
    { destruct (decomposed lg pre) eqn:Hd; [|done].
      by rewrite (decomposed_below _ _ (i :: sfx) Hd) in Hlive. }
    rewrite find_in_elem, Hpre. apply elem_of_app. right.
    apply (find_kids_lists _ _ _ _ 0 i c); [done|].
    replace (pre ++ i :: sfx) with ((pre ++ [i]) ++ sfx) in * by (by rewrite <- app_assoc).
    by eapply IH.
Qed.

Lemma find_all_lists t lg names p nm cs :
  node_at t p = Some (Elem nm cs) -> has_name names nm = true ->
  decomposed lg p = false -> p ∈ find_all t lg names.
Proof.
  intros Hp Hnm Hlive. destruct p as [|i sfx]; [done|]. simpl in Hp.
  destruct (t !! i) as [n|] eqn:Hn; [|done].
  apply (find_kids_lists _ _ _ _ 0 i n); [done|].
  by apply (find_in_lists lg names sfx n [i] nm cs).
Qed.

(** ** The caption loop *)

Lemma caption_or_long_dead t lg st p :
  decomposed lg p = true -> caption_or_long t (lg, st) p = (lg, st).
Proof. intros H. unfold caption_or_long. by rewrite (get_text_dead _ _ _ H). Qed.

Lemma caption_or_long_fires t lg st p :
  fires (strip (get_text t lg p)) ->
  (caption_or_long t (lg, st) p).1 = decompose lg p.
Proof.
  unfold caption_or_long, fires. intros [[m Hm] | Hlen].
  - by rewrite Hm.
  - destruct (rmatch caption_pattern _); [done|].
    apply Nat.ltb_lt in Hlen. by rewrite Hlen.
Qed.

Lemma caption_or_long_step t lg st p :
  caption_or_long t (lg, st) p = (lg, st)
  \/ exists st1,
       caption_or_long t (lg, st) p = (decompose lg p, st1)
       /\ decomposed lg p = false
       /\ (captions_removed st1 + long_paragraphs_removed st1
           = captions_removed st + long_paragraphs_removed st + 1)%nat
       /\ tables_removed st1 = tables_removed st
       /\ images_removed st1 = images_removed st
       /\ scripts_removed st1 = scripts_removed st.
Proof.
  destruct (decomposed lg p) eqn:Hp.
  { left. by apply caption_or_long_dead. }
  unfold caption_or_long.
  destruct (rmatch caption_pattern _).
  { right. eexists. split; [done|]. simpl. repeat split; first [done | lia]. }
  destruct (200 <? _)%nat; [|by left].
  right. eexists. split; [done|]. simpl. repeat split; first [done | lia].
Qed.

Lemma caption_loop_log t L : forall lg st,
  exists E,
    (fold_left (caption_or_long t) L (lg, st)).1 = lg ++ E
    /\ (forall q, q ∈ E -> q ∈ L) /\ fresh lg E
    /\ let st' := (fold_left (caption_or_long t) L (lg, st)).2 in
       (captions_removed st' + long_paragraphs_removed st'
        = captions_removed st + long_paragraphs_removed st + length E)%nat
       /\ tables_removed st' = tables_removed st
       /\ images_removed st' = images_removed st
       /\ scripts_removed st' = scripts_removed st.
Proof.
  induction L as [|p L IH]; intros lg st; cbn [fold_left].
  { exists []. rewrite app_nil_r. split; [done|].
    split; [by intros q ?%elem_of_nil|].
    split; [intros E1 q E2 H; by destruct E1|].
    simpl. repeat split; lia. }
  destruct (caption_or_long_step t lg st p)
    as [-> | (st1 & -> & Hp & H1 & H2 & H3 & H4)].
  - destruct (IH lg st) as (E & HE & Hsub & Hfresh & Hst).
    exists E. split; [done|]. split; [|done].
    intros q Hq. right. by apply Hsub.
  - destruct (IH (decompose lg p) st1) as (E & HE & Hsub & Hfresh & Hst).
    exists (p :: E). unfold decompose in *. rewrite HE, <- app_assoc.
    split; [done|]. split; [|split].
    + intros q [-> | Hq]%elem_of_cons; [by left | right; by apply Hsub].
    + intros E1 q E2 Heq. destruct E1 as [|p' E1]; simpl in Heq.
      * injection Heq as <- _. by rewrite app_nil_r.
      * injection Heq as <- ->. specialize (Hfresh E1 q E2 eq_refl).
        by rewrite <- app_assoc in Hfresh.
    + simpl in *. destruct Hst as (Hs1 & Hs2 & Hs3 & Hs4).
      repeat split; [lia | congruence..].
Qed.

Lemma caption_loop_keeps t L lg st p :
  decomposed lg p = true ->
  decomposed (fold_left (caption_or_long t) L (lg, st)).1 p = true.
Proof.
  intros H. destruct (caption_loop_log t L lg st) as (E & -> & _).
  by rewrite decomposed_app, H.
Qed.

(** A block on which one of the two tests holds when the loop starts is
    gone when the loop ends. *)
Lemma caption_loop_removes t L lg st p :
  ancestors_first L -> p ∈ L ->
  fires (strip (get_text t lg p)) ->
  decomposed (fold_left (caption_or_long t) L (lg, st)).1 p = true.
Proof.
  intros Hord Hp Hfires.
  apply list_elem_of_split in Hp as (L1 & L2 & ->).
  rewrite fold_left_app. simpl.
  destruct (caption_loop_log t L1 lg st) as (E & HE & Hsub & _).
  destruct (fold_left (caption_or_long t) L1 (lg, st)) as [lg1 st1] eqn:Hfold.
  simpl in HE. subst lg1.
  destruct (decomposed (lg ++ E) p) eqn:Hdead.
  { rewrite caption_or_long_dead by done. by apply caption_loop_keeps. }
  assert (Hsame : get_text t (lg ++ E) p = get_text t lg p).
  { apply get_text_stable. intros sfx. rewrite decomposed_app.
    assert (decomposed E (p ++ sfx) = false) as ->; [|by rewrite orb_false_r].
    apply decomposed_false. intros q Hq Hpre.
    destruct (prefix_weak_total q p (p ++ sfx) Hpre) as [H | H];
      [by apply prefix_app_r | |].
    - rewrite decomposed_app in Hdead. apply orb_false_elim in Hdead as [_ Hdead].
      rewrite decomposed_false in Hdead. by eapply Hdead.
    - eapply Hord; [done | by apply Hsub | done]. }
  rewrite <- Hsame in Hfires.
  pose proof (caption_or_long_fires t (lg ++ E) st1 p Hfires) as Hstep.
  destruct (caption_or_long t (lg ++ E, st1) p) as [lg2 st2]. simpl in Hstep. subst lg2.
  apply caption_loop_keeps, decomposed_self.
Qed.

Lemma fires_nonempty text : fires text -> text <> [].
Proof.
  intros [[m Hm] | Hlen] ->; [by vm_compute in Hm | simpl in Hlen; lia].
Qed.

Lemma sanitizer_removes t p :
  paragraph_like t p ->
  fires (text_before_captions t p) ->
  decomposed (clean_html_for_outline t).1 p = true
  /\ p ∉ find_all t (clean_html_for_outline t).1 block_tags.
Proof.
  intros (nm & cs & Hnode & Hnm) Hfires.
  assert (Hlive : decomposed (strip_tags t).1 p = false).
  { destruct (decomposed (strip_tags t).1 p) eqn:Hd; [|done].
    apply fires_nonempty in Hfires. unfold text_before_captions in Hfires.
    by rewrite (get_text_dead _ _ _ Hd) in Hfires. }
  assert (Hp : p ∈ find_all t (strip_tags t).1 ["p"; "div"]).
  { eapply find_all_lists; [exact Hnode | | exact Hlive].
    by destruct Hnm as [-> | ->]. }
  assert (H : decomposed (clean_html_for_outline t).1 p = true).
  { unfold clean_html_for_outline, text_before_captions in *.
    remember (strip_tags t) as s4 eqn:H4. destruct s4 as [lg4 st4].
    apply caption_loop_removes; [apply find_all_ancestors_first | done | done]. }
  split; [done|]. intros Hin%find_all_live. congruence.
Qed.

(** ** Captions *)

Lemma lit_matches s rest : matches (Lit s) s rest.
Proof.
  induction s as [|c s IH]; simpl; [constructor|].
  change (c :: s) with ([c] ++ s). apply matches_seq; [|done].
  constructor. apply N.eqb_refl.
Qed.

Lemma dotted_numeral_chars n :
  dotted_numeral n ->
  n <> [] /\ Forall (fun c => is_digit c || (c =? DOT)%N = true) n.
Proof.
  intros (parts & Hne & Hparts & ->). destruct parts as [|d parts]; [done|].
  rewrite join_flat. apply Forall_cons in Hparts as [[Hd1 Hd2] Hparts]. clear Hne. split.
  - by destruct d.
  - apply Forall_app. split.
    + eapply Forall_impl; [exact Hd2|]. intros c Hc. cbv beta in *. by rewrite Hc.
    + induction Hparts as [|p ps [_ Hp] _ IH]; simpl; [constructor|].
      constructor; [by vm_compute|]. apply Forall_app. split; [|exact IH].
      eapply Forall_impl; [exact Hp|]. intros c Hc. cbv beta in *. by rewrite Hc.
Qed.

Lemma caption_like_matches text :
  caption_like text -> is_Some (rmatch caption_pattern text).
Proof.
  intros (lbl & w & n & rest & -> & Hlbl & Hw & Hn).
  apply dotted_numeral_chars in Hn as [Hn1 Hn2].
  replace (lbl ++ w ++ n ++ rest) with ((lbl ++ w ++ n) ++ rest)
    by (by rewrite <- !app_assoc).
  apply rmatch_complete. unfold caption_pattern. apply matches_seq.
  - constructor. unfold label_words in Hlbl.
    repeat (apply elem_of_cons in Hlbl as [-> | Hlbl];
            [eauto 6 using lit_matches, matches_alt_l, matches_alt_r|]).
    by apply elem_of_nil in Hlbl.
  - apply matches_seq; [by apply star_chr_matches | by apply plus_chr_matches].
Qed.

Lemma caption_like_fires text : caption_like text -> fires text.
Proof. intros H. left. by apply caption_like_matches. Qed.

(** ** The heading loop over a document *)

Lemma outline_of_soup_texts max_level t :
  outline_of_soup max_level t = collect_outline max_level (block_texts t).
Proof.
  unfold outline_of_soup, collect_outline, block_texts.
  generalize (find_all t (clean_html_for_outline t).1 block_tags).
  generalize (@nil entry, (∅ : gset str)).
  intros acc L. revert acc. induction L as [|p L IH]; intros acc; [done|].
  simpl. by rewrite IH.
Qed.

(** ** The driver *)

Lemma render_txt outline : render (utf8 "txt") outline = generate_text_outline outline.
Proof. reflexivity. Qed.

Lemma render_markdown outline :
  render (utf8 "markdown") outline = generate_markdown_outline outline.
Proof. reflexivity. Qed.

Lemma render_json outline : render (utf8 "json") outline = json_dumps outline.
Proof. reflexivity. Qed.

Lemma truthy_txt : truthy (Some outline_txt) = Some outline_txt.
Proof. reflexivity. Qed.

Lemma truthy_md : truthy (Some outline_md) = Some outline_md.
Proof. reflexivity. Qed.

Lemma truthy_json : truthy (Some outline_json) = Some outline_json.
Proof. reflexivity. Qed.

(** ** Runs of a program on a system *)

Lemma run_io_bind {W A B : Type} (sys : system W) (m : io A) (f : A -> io B) : forall w,
  run_io sys (bind m f) w =
  match run_io sys m w with
  | (tr1, Some (a, w1)) => let '(tr2, r) := run_io sys (f a) w1 in (tr1 ++ tr2, r)
  | (tr1, None) => (tr1, None)
  end.
Proof.
  induction m as [a | g k IH | g text k IH | s k IH]; intros w; simpl.
  - by destruct (run_io sys (f a) w).
  - destruct (sys_read sys g w) as [[content w']|]; [|done].
    rewrite IH. destruct (run_io sys (k content) w') as [tr1 [[a w1]|]]; [|done].
    by destruct (run_io sys (f a) w1).
  - destruct (sys_write sys g text w) as [w'|]; [|done].
    rewrite IH. destruct (run_io sys k w') as [tr1 [[a w1]|]]; [|done].
    by destruct (run_io sys (f a) w1).
  - destruct (sys_print sys s w) as [w'|]; [|done].
    rewrite IH. destruct (run_io sys k w') as [tr1 [[a w1]|]]; [|done].
    by destruct (run_io sys (f a) w1).
Qed.

(** A run of [m] followed by [f] that goes to its end is a run of [m] to
    its end, then one of [f]. *)
Lemma run_io_bind_inv {W A B : Type} (sys : system W) (m : io A) (f : A -> io B) w tr r :
  run_io sys (bind m f) w = (tr, Some r) ->
  exists tr1 a w1 tr2,
    run_io sys m w = (tr1, Some (a, w1))
    /\ run_io sys (f a) w1 = (tr2, Some r) /\ tr = tr1 ++ tr2.
Proof.
  rewrite run_io_bind. destruct (run_io sys m w) as [tr1 [[a w1]|]]; [|done].
  destruct (run_io sys (f a) w1) as [tr2 r2] eqn:H2. intros H. injection H as <- ->.
  by exists tr1, a, w1, tr2.
Qed.

Lemma run_io_read_inv {W : Type} (sys : system W) f w tr content w' :
  run_io sys (read_file f) w = (tr, Some (content, w')) -> tr = [Read_ok f content].
Proof.
  simpl. destruct (sys_read sys f w) as [[c w1]|]; [|done].
  intros H. by injection H as <- <- _.
Qed.

Lemma run_io_write_inv {W : Type} (sys : system W) f text w tr r :
  run_io sys (write_file f text) w = (tr, Some r) -> tr = [Wrote f text].
Proof.
  simpl. destruct (sys_write sys f text w) as [w1|]; [|done].
  intros H. by injection H as <- _.
Qed.

Lemma run_io_print_inv {W : Type} (sys : system W) s w tr r :
  run_io sys (print s) w = (tr, Some r) -> tr = [Printed s].
Proof.
  simpl. destruct (sys_print sys s w) as [w1|]; [|done].
  intros H. by injection H as <- _.
Qed.

Lemma run_io_ret_inv {W A : Type} (sys : system W) (a : A) w tr b w' :
  run_io sys (ret a) w = (tr, Some (b, w')) -> tr = [] /\ b = a.
Proof. simpl. intros H. by injection H as <- <- _. Qed.




Lemma reads_app tr1 tr2 : reads (tr1 ++ tr2) = reads tr1 ++ reads tr2.
Proof. apply omap_app. Qed.

Lemma writes_app tr1 tr2 : writes (tr1 ++ tr2) = writes tr1 ++ writes tr2.
Proof. apply omap_app. Qed.

Lemma printed_app tr1 tr2 : printed (tr1 ++ tr2) = printed tr1 ++ printed tr2.
Proof. apply omap_app. Qed.

Lemma reads_printed lines : reads (Printed <$> lines) = [].
Proof. induction lines as [|l lines IH]; [done | exact IH]. Qed.

Lemma writes_printed lines : writes (Printed <$> lines) = [].
Proof. induction lines as [|l lines IH]; [done | exact IH]. Qed.

Lemma printed_printed lines : printed (Printed <$> lines) = lines.
Proof. induction lines as [|l lines IH]; [done|]. simpl. by rewrite <- IH at 2. Qed.

(** ** One pass of [extract_outline] *)

Section DriverFacts.

Variable html_parser : str -> soup.

Lemma pass_reads html_file output_file format max_level content :
  reads (pass_events html_parser html_file output_file format max_level content)
  = [(html_file, content)].
Proof.
  unfold pass_events. cbv zeta. change (reads (?e :: ?l)) with (reads ([e] ++ l)).
  rewrite !reads_app, reads_printed. by destruct (truthy output_file).
Qed.

Lemma pass_writes html_file output_file format max_level content :
  writes (pass_events html_parser html_file output_file format max_level content)
  = match truthy output_file with
    | Some f => [(f, render format (outline_of_soup max_level (html_parser content)))]
    | None => []
    end.
Proof.
  unfold pass_events. cbv zeta. change (writes (?e :: ?l)) with (writes ([e] ++ l)).
  rewrite !writes_app, writes_printed. by destruct (truthy output_file).
Qed.

Lemma pass_printed html_file output_file format max_level content :
  printed (pass_events html_parser html_file output_file format max_level content)
  = cleaning_report (clean_html_for_outline (html_parser content)).2
    ++ [match truthy output_file with
        | Some f => utf8 "大纲已保存到: " ++ f
        | None => render format (outline_of_soup max_level (html_parser content))
        end].
Proof.
  unfold pass_events. cbv zeta. change (printed (?e :: ?l)) with (printed ([e] ++ l)).
  rewrite !printed_app, printed_printed. by destruct (truthy output_file).
Qed.

Lemma extract_outline_opens html_file output_file format max_level :
  opens_only [html_file] (output_files output_file)
    (extract_outline html_parser html_file output_file format max_level).
Proof.
  unfold extract_outline, output_files. split; [by left|]. intros content.
  destruct output_file as [[|c f]|]; simpl; repeat split; by left.
Qed.

(** A pass that runs to its end did what [pass_events] lists, for the
    content it read, and returns the outline of that content. *)
Lemma extract_outline_complete {W : Type} (sys : system W)
    html_file output_file format max_level w tr o w' :
  run_io sys (extract_outline html_parser html_file output_file format max_level) w
  = (tr, Some (o, w')) ->
  exists content,
    tr = pass_events html_parser html_file output_file format max_level content
    /\ o = outline_of_soup max_level (html_parser content).
Proof.
  unfold extract_outline. intros H.
  apply run_io_bind_inv in H as (tr0 & content & w0 & tr' & H0 & H & ->).
  apply run_io_read_inv in H0 as ->. exists content.
  repeat (apply run_io_bind_inv in H as (? & [] & ? & ? & ?%run_io_print_inv & H & ->);
          subst).
  apply run_io_bind_inv in H as (tr1 & [] & w1 & tr2 & H1 & H2 & ->).
  apply run_io_ret_inv in H2 as [-> ->]. split; [|done].
  unfold pass_events. cbv zeta. simpl app. do 8 f_equal.
  destruct output_file as [[|c f]|]; cbn [truthy].
  - by apply run_io_print_inv in H1 as ->.
  - apply run_io_bind_inv in H1 as (? & [] & ? & ? & ?%run_io_write_inv & H1 & ->).
    apply run_io_print_inv in H1 as ->. by subst.
  - by apply run_io_print_inv in H1 as ->.
Qed.

End DriverFacts.

(** ** The driver *)

Section DriverLemmas.

Variable html_parser : str -> soup.



End DriverLemmas.

(** * The claims *)

(** C1: the five blocks "1 Introduction", "1.1 Background", "1.1.1 Sensor
    Placement", "2 Methods", "2.1 Data Collection", in this order and with
    max_level 2, give exactly the outline "1 Introduction", "1.1 Background",
    "2 Methods", "2.1 Data Collection"; the third block is a candidate of
    level 3 and is left out by the depth bound. *)
Theorem intro_example :
  collect_outline 2 intro_blocks = intro_outline
  /\ outline_of_soup 2 intro_doc = intro_outline
  /\ map (fun e => number e ++ utf8 " " ++ title e) (outline_of_soup 2 intro_doc)
     = [utf8 "1 Introduction"; utf8 "1.1 Background"; utf8 "2 Methods";
        utf8 "2.1 Data Collection"]
  /\ level <$> heading_candidate (utf8 "1.1.1 Sensor Placement") = Some 3.
Proof. repeat split; vm_compute; reflexivity. Qed.

(** C2, as the specification words it, fails on the block "1 (2)": the
    grammar matches it with the title "(2)", three characters long, yet the
    loop skips it because it consists of digits, blanks and brackets only. *)
Lemma noise_block_not_emitted : ~ grammar_match_emits (utf8 "1 (2)").
Proof.
  intros H.
  destruct (H [(2, utf8 "(2)"); (1, utf8 "1")]) as [c Hc].
  - vm_compute. reflexivity.
  - vm_compute. lia.
  - vm_compute in Hc. discriminate.
Qed.

(** C2, amended: a block whose trimmed text is not made of digits, blanks
    and the signs . - , ( ) [ ] only, matches the heading grammar and has a
    trimmed title of two characters or more yields a candidate: its numeral
    path is the dotted numeral the text starts with, blanks follow, the
    title is what the grammar took for it, without the page number the text
    may end with, and its level is the number of dots in the path plus one.
    A block that does not match, or whose trimmed title is shorter than two
    characters, yields no candidate, and the loop goes on unchanged. *)
Theorem heading_candidate_correct raw :
  (forall m,
     rmatch noise_pattern (strip raw) = None ->
     rmatch heading_pattern (strip raw) = Some m ->
     (2 <= length (strip (group 2 m)))%nat ->
     exists sep page,
       heading_candidate raw
       = Some (mkEntry (group 1 m) (strip (group 2 m))
                       (count_char DOT (group 1 m) + 1) (strip raw))
       /\ strip raw = group 1 m ++ sep ++ group 2 m ++ page
       /\ dotted_numeral (group 1 m) /\ spaces sep
       /\ (page = [] \/ page_number page)
       /\ (forall x p, group 2 m ++ page = x ++ p -> x <> [] -> page_number p ->
             (length (group 2 m) <= length x)%nat))
  /\ (rmatch heading_pattern (strip raw) = None -> heading_candidate raw = None)
  /\ (forall m, rmatch heading_pattern (strip raw) = Some m ->
        (length (strip (group 2 m)) < 2)%nat -> heading_candidate raw = None)
  /\ (heading_candidate raw = None ->
        forall max_level acc, outline_step max_level acc raw = acc).
Proof.
  split; [|split; [|split]].
  - intros m Hnoise Hm Hlen.
    destruct (heading_shape _ _ Hm)
      as (sep & page & tail & Htext & Hnum & Hsep & Hne & _ & Hpage & Htail & Hmin).
    assert (tail = []) as ->.
    { destruct Htail as [-> | ->]; [done|]. exfalso.
      rewrite !app_assoc in Htext. by apply strip_last in Htext. }
    rewrite app_nil_r in Htext. exists sep, page.
    split; [|done]. unfold heading_candidate.
    destruct (strip raw) as [|a text] eqn:Hraw.
    { vm_compute in Hm. discriminate. }
    rewrite Hnoise, Hm.
    assert ((length (strip (group 2 m)) <? 2)%nat = false) as ->
      by (apply Nat.ltb_ge; lia).
    destruct (strip (group 2 m)); [simpl in Hlen; lia | done].
  - intros Hm. unfold heading_candidate. rewrite Hm.
    destruct (strip raw); [done|]. by destruct (rmatch noise_pattern _).
  - intros m Hm Hlen. unfold heading_candidate. rewrite Hm.
    destruct (strip raw); [done|]. destruct (rmatch noise_pattern _); [done|].
    assert ((length (strip (group 2 m)) <? 2)%nat = true) as ->
      by (apply Nat.ltb_lt; lia).
    by rewrite orb_true_r.
  - intros Hnone max_level acc. by rewrite outline_step_candidate, Hnone.
Qed.

Lemma heading_candidate_correct_witness :
  exists sep page,
    heading_candidate (utf8 "  1.1 Background 12 ")
    = Some (mkEntry (utf8 "1.1") (utf8 "Background") 2 (utf8 "1.1 Background 12"))
    /\ utf8 "1.1 Background 12" = utf8 "1.1" ++ sep ++ utf8 "Background" ++ page
    /\ spaces sep /\ (page = [] \/ page_number page).
Proof.
  destruct (heading_candidate_correct (utf8 "  1.1 Background 12 ")) as [H _].
  destruct (H [(2, utf8 "Background"); (1, utf8 "1.1")])
    as (sep & page & H1 & H2 & _ & H3 & H4 & _).
  - vm_compute. reflexivity.
  - vm_compute. reflexivity.
  - vm_compute. lia.
  - exists sep, page. split; [exact H1|]. split; [exact H2|]. split; [exact H3 | exact H4].
Defined.

(** C3: whatever max_level is (1, 2 or 3 included) and whatever the blocks
    are, no candidate deeper than max_level is in the result, every entry
    of the result has a level between 1 and max_level, no numeral path
    occurs twice in the result, and the result lists its entries in the
    order of the candidates, that is in document order. *)
Theorem outline_invariants max_level texts :
  let result := collect_outline max_level texts in
  (forall c, c ∈ candidates texts -> (max_level < level c)%nat -> c ∉ result)
  /\ (forall e, e ∈ result -> (1 <= level e <= max_level)%nat)
  /\ NoDup (number <$> result)
  /\ result `sublist_of` candidates texts.
Proof.
  intros result. unfold result. rewrite collect_accumulate.
  split; [|split; [|split]].
  - intros c _ Hdeep Hin. apply accumulate_level in Hin. lia.
  - intros e He. split; [|by eapply accumulate_level].
    assert (Hc : e ∈ candidates texts)
      by (eapply elem_of_sublist; [exact He | apply accumulate_sublist]).
    rewrite (candidates_level _ _ Hc). lia.
  - apply accumulate_NoDup.
  - apply accumulate_sublist.
Qed.

Lemma outline_invariants_witness :
  (mkEntry (utf8 "1.1.1") (utf8 "Sensor Placement") 3 (utf8 "1.1.1 Sensor Placement")
     ∉ collect_outline 2 intro_blocks)
  /\ NoDup (number <$> collect_outline 2 intro_blocks).
Proof.
  destruct (outline_invariants 2 intro_blocks) as (H1 & _ & H3 & _).
  split; [|exact H3]. apply H1.
  - apply list_elem_of_In. vm_compute. tauto.
  - vm_compute. lia.
Defined.

(** C4: the loop of the source is the accumulator of the specification:
    run over the candidates in order, it drops a candidate deeper than
    max_level, else drops one whose numeral path was seen, else records the
    path and appends the candidate.  So when a numeral path occurs twice
    among the candidates, the result holds the first occurrence only (and
    none when the path is deeper than max_level). *)
Theorem loop_is_accumulator max_level texts :
  collect_outline max_level texts = accumulate max_level ∅ (candidates texts)
  /\ (forall l1 c1 l2 c2 l3,
        candidates texts = l1 ++ c1 :: l2 ++ c2 :: l3 ->
        number c2 = number c1 ->
        (forall c, c ∈ l1 -> number c <> number c1) ->
        filter (fun e => number e = number c1) (collect_outline max_level texts)
        = if (level c1 <=? max_level)%nat then [c1] else []).
Proof.
  split; [apply collect_accumulate|].
  intros l1 c1 l2 c2 l3 Hcands _ Hfirst. rewrite collect_accumulate.
  eapply accumulate_first; [apply candidates_level | exact Hcands | exact Hfirst].
Qed.

Lemma loop_is_accumulator_witness :
  filter (fun e => number e = utf8 "2.1")
    (collect_outline 2 [utf8 "2.1 Data Collection"; utf8 "3 Results"; utf8 "2.1 Page Header"])
  = [mkEntry (utf8 "2.1") (utf8 "Data Collection") 2 (utf8 "2.1 Data Collection")].
Proof.
  destruct (loop_is_accumulator 2
    [utf8 "2.1 Data Collection"; utf8 "3 Results"; utf8 "2.1 Page Header"]) as [_ H].
  apply (H []
           (mkEntry (utf8 "2.1") (utf8 "Data Collection") 2 (utf8 "2.1 Data Collection"))
           [mkEntry (utf8 "3") (utf8 "Results") 1 (utf8 "3 Results")]
           (mkEntry (utf8 "2.1") (utf8 "Page Header") 2 (utf8 "2.1 Page Header"))
           []).
  - vm_compute. reflexivity.
  - reflexivity.
  - intros c Hc. by apply elem_of_nil in Hc.
Defined.

Lemma heading_starts_with_digit text m :
  rmatch heading_pattern text = Some m ->
  exists c rest, text = c :: rest /\ is_digit c = true.
Proof.
  intros H. apply heading_shape in H
    as (sep & page & tail & -> & (parts & Hne & Hparts & Hnum) & _).
  rewrite Hnum. destruct parts as [|d parts]; [done|].
  apply Forall_cons in Hparts as [[Hd1 Hd2] _]. rewrite join_flat.
  destruct d as [|c d]; [done|]. apply Forall_cons in Hd2 as [Hc _].
  by exists c, ((d ++ flat_map (fun p => [DOT] ++ p) parts) ++ sep ++ group 2 m ++ page ++ tail).
Qed.

Lemma outline_entry_starts_with_digit max_level t e :
  e ∈ outline_of_soup max_level t ->
  exists c rest, full_text e = c :: rest /\ is_digit c = true.
Proof.
  rewrite outline_of_soup_texts, collect_accumulate. intros He.
  assert (Hc : e ∈ candidates (block_texts t))
    by (eapply elem_of_sublist; [exact He | apply accumulate_sublist]).
  apply list_elem_of_omap in Hc as (raw & _ & Hraw).
  unfold heading_candidate in Hraw.
  destruct (strip raw) as [|a text]; [done|].
  destruct (rmatch noise_pattern (a :: text)); [done|].
  destruct (rmatch heading_pattern (a :: text)) as [m|] eqn:Hm; [|done].
  destruct (bool_decide (strip (group 2 m) = []) || (length (strip (group 2 m)) <? 2)%nat);
    [done|].
  injection Hraw as <-. by eapply heading_starts_with_digit.
Qed.

(** C5: a p or div block whose trimmed text, when the caption loop starts,
    starts with one of the label words 图, 表, Fig, Table followed
    (after optional blanks) by a dotted numeral, is destroyed by the
    sanitizer and is not among the blocks the heading loop runs over, from
    which alone the outline is made.  "图1.1 Layout Diagram" is such a text:
    a block with this text does not reach the heading loop, and no entry of
    any outline has it as its text. *)
Theorem captions_never_reach_matcher :
  (forall t p,
     paragraph_like t p ->
     caption_like (text_before_captions t p) ->
     let lg := (clean_html_for_outline t).1 in
     decomposed lg p = true
     /\ (p ∉ find_all t lg block_tags)
     /\ forall max_level,
          outline_of_soup max_level t
          = collect_outline max_level (map (get_text t lg) (find_all t lg block_tags)))
  /\ caption_like caption_text
  /\ (forall t p,
        paragraph_like t p ->
        text_before_captions t p = caption_text ->
        p ∉ find_all t (clean_html_for_outline t).1 block_tags)
  /\ (forall max_level t e,
        e ∈ outline_of_soup max_level t -> full_text e <> caption_text).
Proof.
  assert (Hcap : caption_like caption_text).
  { exists (utf8 "图"), [], (utf8 "1.1"), (utf8 " Layout Diagram").
    split; [reflexivity|]. split; [by left|]. split; [constructor|].
    exists [utf8 "1"; utf8 "1"]. split; [done|]. split; [|reflexivity].
    repeat constructor; done. }
  split; [|split; [done|split]].
  - intros t p Hp Hlike lg.
    destruct (sanitizer_removes t p Hp (caption_like_fires _ Hlike)) as [H1 H2].
    split; [done|]. split; [done|]. intros max_level. apply outline_of_soup_texts.
  - intros t p Hp Htext. rewrite <- Htext in Hcap.
    by destruct (sanitizer_removes t p Hp (caption_like_fires _ Hcap)).
  - intros max_level t e He Htext.
    apply outline_entry_starts_with_digit in He as (c & rest & Hc & Hdigit).
    rewrite Htext in Hc. injection Hc as <- _. vm_compute in Hdigit. discriminate.
Qed.

Lemma captions_never_reach_matcher_witness :
  ([1; 0] ∉ find_all caption_doc (clean_html_for_outline caption_doc).1 block_tags)
  /\ outline_of_soup 3 caption_doc = collect_outline 3 [utf8 "1 Introduction"].
Proof.
  destruct captions_never_reach_matcher as (H & Hcap & _).
  destruct (H caption_doc [1; 0]) as (_ & H2 & H3).
  - exists "p"%string, [Text caption_text]. split; [reflexivity | by left].
  - exact Hcap.
  - split; [exact H2|]. rewrite H3. reflexivity.
Defined.

(** C6: a p or div block whose trimmed text, when the caption loop starts,
    is longer than 200 characters is destroyed by the sanitizer,
    caption or not, and is not among the blocks the heading loop runs over,
    from which alone the outline is made, whatever max_level is.  This holds
    in particular of a paragraph of 250 characters that starts with
    "1.2 ". *)
Theorem long_paragraphs_never_reach_matcher :
  (forall t p,
     paragraph_like t p ->
     (200 < length (text_before_captions t p))%nat ->
     let lg := (clean_html_for_outline t).1 in
     decomposed lg p = true
     /\ (p ∉ find_all t lg block_tags)
     /\ forall max_level,
          outline_of_soup max_level t
          = collect_outline max_level (map (get_text t lg) (find_all t lg block_tags)))
  /\ (forall t p,
        paragraph_like t p ->
        length (text_before_captions t p) = 250 ->
        utf8 "1.2 " `prefix_of` text_before_captions t p ->
        p ∉ find_all t (clean_html_for_outline t).1 block_tags).
Proof.
  split.
  - intros t p Hp Hlong lg.
    destruct (sanitizer_removes t p Hp (or_intror Hlong)) as [H1 H2].
    split; [done|]. split; [done|]. intros max_level. apply outline_of_soup_texts.
  - intros t p Hp Hlen _.
    assert (Hlong : (200 < length (text_before_captions t p))%nat) by lia.
    by destruct (sanitizer_removes t p Hp (or_intror Hlong)).
Qed.

Lemma long_paragraphs_never_reach_matcher_witness :
  length long_text = 250
  /\ ([1] ∉ find_all long_doc (clean_html_for_outline long_doc).1 block_tags)
  /\ outline_of_soup 3 long_doc = collect_outline 3 [utf8 "1 Introduction"].
Proof.
  destruct long_paragraphs_never_reach_matcher as [H _].
  destruct (H long_doc [1]) as (_ & H2 & H3).
  - exists "p"%string, [Text long_text]. split; [reflexivity | by left].
  - vm_compute. lia.
  - split; [reflexivity|]. split; [exact H2|]. rewrite H3. reflexivity.
Defined.


Section DriverFiles.

Variable html_parser : str -> soup.


End DriverFiles.


(** C8, as the specification words it, fails on a table inside a table:
    the list of tables is taken before any of them is removed, so the inner
    table is decomposed again after it has gone with the outer one (and
    both count in [tables_removed]). *)
Lemma nested_table_removed_twice :
  (clean_html_for_outline nested_tables).1 = [[0]; [0; 0; 0]]
  /\ tables_removed (clean_html_for_outline nested_tables).2 = 2
  /\ ~ removed_once (clean_html_for_outline nested_tables).1.
Proof.
  split; [reflexivity|]. split; [reflexivity|].
  intros H. apply (H 0 1 [0] [0; 0; 0]); [lia | lia | reflexivity | reflexivity |].
  by exists [0; 0].
Qed.

(** C8, amended: in the caption loop no block is removed twice, and no
    block is removed after a block around it was removed, by this loop or by
    a tag rule before it; the two counters of the loop count exactly its
    removals.  A p or div block inside a block that is already gone is still
    visited, through a reference that has become empty: its text is empty,
    neither test holds, the document and the counters stay as they are.  And
    no rule lists a tag that lies inside a block removed before the rule
    took its list. *)
Theorem caption_loop_removes_once t :
  let lg4 := (strip_tags t).1 in
  let lg := (clean_html_for_outline t).1 in
  let stats := (clean_html_for_outline t).2 in
  removed_once_from (length lg4) lg
  /\ (captions_removed stats + long_paragraphs_removed stats
      = length lg - length lg4)%nat
  /\ (forall lg0 stats0 p,
        decomposed lg0 p = true ->
        get_text t lg0 p = [] /\ caption_or_long t (lg0, stats0) p = (lg0, stats0))
  /\ (forall lg0 names p, p ∈ find_all t lg0 names -> decomposed lg0 p = false).
Proof.
  intros lg4 lg stats.
  split; [|split; [|split]].
  - unfold lg, lg4, clean_html_for_outline.
    destruct (caption_loop_log t (find_all t (strip_tags t).1 ["p"; "div"])
                (strip_tags t).1 (strip_tags t).2) as (E & HE & _ & Hfresh & _).
    rewrite <- surjective_pairing in HE. rewrite HE.
    intros i j q p Hij Hj Hq Hp.
    rewrite lookup_app_r in Hp by done.
    pose proof (take_drop_middle _ _ _ Hp) as Hsplit. symmetry in Hsplit.
    specialize (Hfresh _ _ _ Hsplit). rewrite decomposed_false in Hfresh.
    apply Hfresh. apply list_elem_of_lookup. exists i.
    assert (Hlen : (j - length (strip_tags t).1 < length E)%nat)
      by (by eapply lookup_lt_Some).
    rewrite <- Hq. destruct (decide (i < length (strip_tags t).1)%nat).
    + rewrite !lookup_app_l by done. done.
    + rewrite !lookup_app_r by lia. apply lookup_take_lt. lia.
  - unfold lg, lg4, stats, clean_html_for_outline.
    destruct (caption_loop_log t (find_all t (strip_tags t).1 ["p"; "div"])
                (strip_tags t).1 (strip_tags t).2) as (E & HE & _ & _ & Hst & _).
    rewrite <- surjective_pairing in HE, Hst. rewrite HE, Hst, length_app.
    unfold strip_tags. simpl. lia.
  - intros lg0 stats0 p Hp. split; [by apply get_text_dead | by apply caption_or_long_dead].
  - intros lg0 names p. apply find_all_live.
Qed.

Lemma caption_loop_removes_once_witness :
  get_text caption_doc [[1]] [1; 0] = []
  /\ caption_or_long caption_doc ([[1]], mkStats 0 0 0 1 0) [1; 0]
     = ([[1]], mkStats 0 0 0 1 0).
Proof.
  destruct (caption_loop_removes_once caption_doc) as (_ & _ & H & _).
  apply H. reflexivity.
Defined.

Section DriverRuns.

Variable html_parser : str -> soup.


End DriverRuns.


(** C10, as the specification words it, fails for max_level 1: of the
    four candidates "1", "1.0", "2.1" and "2.01", whose paths all differ as
    written, only "1" is in the result; "1.0", which the claim pairs with
    "1", and "2.1" and "2.01", which denote the same numbers, have level 2
    and are left out. *)
Lemma deeper_numeral_not_retained :
  number <$> candidates same_number_blocks
  = [utf8 "1"; utf8 "1.0"; utf8 "2.1"; utf8 "2.01"]
  /\ number <$> collect_outline 1 same_number_blocks = [utf8 "1"]
  /\ ~ both_retained 1 same_number_blocks.
Proof.
  split; [vm_compute; reflexivity|]. split; [vm_compute; reflexivity|].
  intros H.
  destruct (H (mkEntry (utf8 "1") (utf8 "Introduction") 1 (utf8 "1 Introduction"))
              (mkEntry (utf8 "1.0") (utf8 "Overview") 2 (utf8 "1.0 Overview")))
    as [_ H2].
  - apply list_elem_of_In. vm_compute. tauto.
  - apply list_elem_of_In. vm_compute. tauto.
  - vm_compute. discriminate.
  - apply list_elem_of_In in H2. vm_compute in H2. destruct H2 as [H2 | []].
    discriminate H2.
Qed.

(** C10, amended: numeral paths are compared as they are written.  Two
    candidates whose paths differ as strings, even when they denote the same
    numbers as "1" and "01" do, are both in the result, each under its own
    path, provided both are within the depth bound. *)
Theorem distinct_numerals_retained max_level texts c1 c2 :
  c1 ∈ candidates texts -> c2 ∈ candidates texts ->
  number c1 <> number c2 ->
  (level c1 <= max_level)%nat -> (level c2 <= max_level)%nat ->
  exists e1 e2,
    e1 ∈ collect_outline max_level texts /\ e2 ∈ collect_outline max_level texts
    /\ number e1 = number c1 /\ number e2 = number c2 /\ e1 <> e2.
Proof.
  intros H1 H2 Hne Hl1 Hl2. rewrite collect_accumulate.
  destruct (accumulate_keeps max_level (candidates texts) ∅ c1 H1 Hl1) as [H | Hk1];
    [by apply elem_of_empty in H|].
  destruct (accumulate_keeps max_level (candidates texts) ∅ c2 H2 Hl2) as [H | Hk2];
    [by apply elem_of_empty in H|].
  apply list_elem_of_fmap in Hk1 as (e1 & He1 & Hin1).
  apply list_elem_of_fmap in Hk2 as (e2 & He2 & Hin2).
  exists e1, e2. repeat split; [done | done | done | done |].
  intros ->. congruence.
Qed.

Lemma distinct_numerals_retained_witness :
  exists e1 e2,
    e1 ∈ collect_outline 1 [utf8 "1 Introduction"; utf8 "01 Overview"]
    /\ e2 ∈ collect_outline 1 [utf8 "1 Introduction"; utf8 "01 Overview"]
    /\ number e1 = utf8 "1" /\ number e2 = utf8 "01" /\ e1 <> e2.
Proof.
  apply (distinct_numerals_retained 1 [utf8 "1 Introduction"; utf8 "01 Overview"]
           (mkEntry (utf8 "1") (utf8 "Introduction") 1 (utf8 "1 Introduction"))
           (mkEntry (utf8 "01") (utf8 "Overview") 1 (utf8 "01 Overview"))).
  - apply list_elem_of_In. vm_compute. tauto.
  - apply list_elem_of_In. vm_compute. tauto.
  - vm_compute. discriminate.
  - vm_compute. lia.
  - vm_compute. lia.
Defined.

(** * Further properties of the code *)

(** ** Trimming *)

Lemma lstrip_suffix s : exists w, s = w ++ lstrip s /\ Forall (fun c => is_space c = true) w.
Proof.
  induction s as [|c s (w & IH1 & IH2)]; simpl; [by exists []|].
  destruct (is_space c) eqn:Hc.
  - exists (c :: w). split; [by rewrite <- app_comm_cons, <- IH1 | by constructor].
  - by exists [].
Qed.

Lemma rstrip_prefix s : exists w, s = rstrip s ++ w /\ Forall (fun c => is_space c = true) w.
Proof.
  unfold rstrip. destruct (lstrip_suffix (rev s)) as (w & H1 & H2).
  exists (rev w). split.
  - apply (f_equal (@rev char)) in H1. by rewrite rev_involutive, rev_app_distr in H1.
  - apply Forall_forall. intros c Hc. rewrite Forall_forall in H2. apply H2.
    apply list_elem_of_In. apply list_elem_of_In in Hc. by apply in_rev.
Qed.

Lemma lstrip_fixed c s : is_space c = false -> lstrip (c :: s) = c :: s.
Proof. intros H. simpl. by rewrite H. Qed.

Lemma strip_head s c s' : strip s = c :: s' -> is_space c = false.
Proof.
  unfold strip. intros H.
  destruct (rstrip_prefix (lstrip s)) as (w & Hw1 & Hw2). rewrite H in Hw1.
  simpl in Hw1. by eapply lstrip_head.
Qed.

Lemma strip_idempotent s : strip (strip s) = strip s.
Proof.
  destruct (strip s) as [|c t] eqn:Ht; [done|].
  pose proof (strip_head _ _ _ Ht) as Hc.
  unfold strip at 1. rewrite lstrip_fixed by done. unfold rstrip.
  destruct (rev (c :: t)) as [|z r] eqn:Hr.
  { apply (f_equal (@length char)) in Hr. rewrite length_rev in Hr. done. }
  assert (Hz : is_space z = false).
  { apply (strip_last s (rev r) z). rewrite Ht.
    apply (f_equal (@rev char)) in Hr. rewrite rev_involutive in Hr. by rewrite Hr. }
  rewrite lstrip_fixed by done. rewrite <- Hr. apply rev_involutive.
Qed.

Lemma lstrip_Forall (P : char -> Prop) s : Forall P s -> Forall P (lstrip s).
Proof.
  intros H. destruct (lstrip_suffix s) as (w & Hw & _). rewrite Hw in H.
  by apply Forall_app in H as [_ ?].
Qed.

Lemma strip_Forall (P : char -> Prop) s : Forall P s -> Forall P (strip s).
Proof.
  intros H. apply lstrip_Forall in H. unfold strip.
  destruct (rstrip_prefix (lstrip s)) as (w & Hw & _). rewrite Hw in H.
  by apply Forall_app in H as [? _].
Qed.

(** ** The three patterns, as grammars *)

Lemma matches_lit s x rest : matches (Lit s) x rest -> x = s.
Proof.
  revert x. induction s as [|c s IH]; intros x H; simpl in H.
  - by apply matches_eps_inv in H.
  - apply matches_seq_inv in H as (x1 & x2 & -> & H1 & H2).
    apply matches_chr_inv in H1 as (a & -> & ->%N.eqb_eq).
    by rewrite (IH _ H2).
Qed.

Lemma dots_match g parts rest :
  Forall digits parts ->
  matches (Star g (Seq (Chr (N.eqb DOT)) (Plus true digit)))
          (flat_map (fun p => [DOT] ++ p) parts) rest.
Proof.
  induction 1 as [|d parts [Hd1 Hd2] _ IH]; [constructor|].
  change (flat_map (fun p => [DOT] ++ p) (d :: parts))
    with (([DOT] ++ d) ++ flat_map (fun p => [DOT] ++ p) parts).
  apply matches_star_more; [done | | done].
  apply matches_seq; [constructor; apply N.eqb_refl | by apply plus_chr_matches].
Qed.

Lemma numeral_matches n rest : dotted_numeral n -> matches numeral_re n rest.
Proof.
  intros (parts & Hne & Hparts & ->). destruct parts as [|d parts]; [done|].
  apply Forall_cons in Hparts as [[Hd1 Hd2] Hparts]. rewrite join_flat.
  apply matches_seq; [by apply plus_chr_matches | by apply dots_match].
Qed.

(** X1: [heading_pattern] matches a text exactly when the text is a dotted
    numeral, one or more blanks, a title of one or more characters without a
    newline, and then nothing or a page number (blanks and digits), up to
    one final newline. *)
Theorem heading_grammar text :
  is_Some (rmatch heading_pattern text) <->
  exists n sep ttl page tail,
    text = n ++ sep ++ ttl ++ page ++ tail
    /\ dotted_numeral n /\ spaces sep /\ title_text ttl
    /\ (page = [] \/ page_number page) /\ (tail = [] \/ tail = [NL]).
Proof.
  split.
  - intros [m Hm].
    destruct (heading_shape _ _ Hm)
      as (sep & page & tail & Htext & Hnum & Hsep & Hne & Hnl & Hpage & Htail & _).
    by exists (group 1 m), sep, (group 2 m), page, tail.
  - intros (n & sep & ttl & page & tail & -> & Hn & [Hs1 Hs2] & [Ht1 Ht2] & Hpage & Htail).
    replace (n ++ sep ++ ttl ++ page ++ tail)
      with ((n ++ sep ++ ttl ++ page ++ []) ++ tail)
      by (by rewrite <- !app_assoc).
    apply rmatch_complete. unfold heading_pattern.
    apply matches_seq; [constructor; by apply numeral_matches|].
    apply matches_seq; [by apply plus_chr_matches|].
    apply matches_seq.
    { constructor. apply plus_chr_matches; [done|].
      eapply Forall_impl; [exact Ht2|]. intros c Hc. cbv beta.
      apply negb_true_iff, N.eqb_neq. done. }
    apply matches_seq; [|by constructor].
    destruct Hpage as [-> | Hp]; [apply matches_alt_r; constructor|].
    by apply page_number_matches.
Qed.

Lemma heading_grammar_witness :
  is_Some (rmatch heading_pattern (utf8 "3.2.1 Wind Farm Layout 47")).
Proof.
  apply heading_grammar.
  exists (utf8 "3.2.1"), (utf8 " "), (utf8 "Wind Farm Layout"), (utf8 " 47"), [].
  split; [reflexivity|]. split.
  { exists [utf8 "3"; utf8 "2"; utf8 "1"]. split; [done|]. split; [|reflexivity].
    repeat constructor; done. }
  split; [split; [done | by apply (bool_decide_unpack _)]|].
  split; [split; [done | by apply (bool_decide_unpack _)]|].
  split; [|by left]. right. exists (utf8 " "), (utf8 "47").
  split; [reflexivity|]. split; split; (done || by apply (bool_decide_unpack _)).
Defined.

(** X2: the digits-and-punctuation test of the heading loop holds of a
    text exactly when the text is not empty and is made of digits,
    whitespace and the characters . - , ( ) [ ] only. *)
Theorem noise_grammar text :
  is_Some (rmatch noise_pattern text) <->
  text <> [] /\ Forall (fun c => noise_char c = true) text.
Proof.
  split.
  - intros [m Hm]. unfold rmatch in Hm.
    apply run_sound in Hm as (x & tail & c' & -> & Hx & _).
    apply matches_seq_inv in Hx as (y & e & -> & Hy & He).
    apply matches_eos_inv in He as (-> & Htail).
    apply matches_plus_chr in Hy as [Hy1 Hy2]. rewrite app_nil_r. split.
    + by destruct y.
    + apply Forall_app. split; [done|].
      destruct Htail as [-> | ->]; [constructor|]. by repeat constructor.
  - intros [Hne Hall]. rewrite <- (app_nil_r text). apply rmatch_complete.
    rewrite <- (app_nil_r text). apply matches_seq; [|constructor; by left].
    by apply plus_chr_matches.
Qed.

Lemma noise_grammar_witness :
  is_Some (rmatch noise_pattern (utf8 "(12) - 3.4, [5]"))
  /\ ~ is_Some (rmatch noise_pattern (utf8 "12 a")).
Proof.
  split.
  - apply noise_grammar. split; [done|]. by apply (bool_decide_unpack _).
  - intros H. apply noise_grammar in H as [_ H].
    apply Forall_forall with (x := 0x61%N) in H; [by vm_compute in H|].
    apply list_elem_of_In. vm_compute. tauto.
Defined.

(** X3: the caption test holds of a text exactly when the text starts with
    one of the label words 图, 表, Fig, Table, then any blanks, then one or
    more characters that are digits or dots; so "Fig. 3" and "Table ..."
    pass it as well as "图1.1", and "Figure 1" does not. *)
Theorem caption_grammar text :
  is_Some (rmatch caption_pattern text) <->
  exists lbl w d rest,
    text = lbl ++ w ++ d ++ rest /\ lbl ∈ label_words
    /\ Forall (fun c => is_space c = true) w /\ digits_or_dots d.
Proof.
  split.
  - intros [m Hm]. unfold rmatch in Hm.
    apply run_sound in Hm as (x & rest & c' & -> & Hx & _).
    unfold caption_pattern in Hx.
    apply matches_seq_inv in Hx as (lbl & y & -> & Hlbl & Hy).
    apply matches_seq_inv in Hy as (w & d & -> & Hw & Hd).
    apply matches_group_inv in Hlbl.
    apply matches_star_chr in Hw. apply matches_plus_chr in Hd.
    exists lbl, w, d, rest. split; [by rewrite <- !app_assoc|]. split; [|done].
    unfold label_words.
    apply matches_alt_inv in Hlbl as [H | H]; [apply matches_lit in H as ->; by left|].
    apply matches_alt_inv in H as [H | H];
      [apply matches_lit in H as ->; right; by left|].
    apply matches_alt_inv in H as [H | H]; apply matches_lit in H as ->.
    + right; right; by left.
    + right; right; right; by left.
  - intros (lbl & w & d & rest & -> & Hlbl & Hw & [Hd1 Hd2]).
    replace (lbl ++ w ++ d ++ rest) with ((lbl ++ w ++ d) ++ rest)
      by (by rewrite <- !app_assoc).
    apply rmatch_complete. unfold caption_pattern. apply matches_seq.
    + constructor. unfold label_words in Hlbl.
      repeat (apply elem_of_cons in Hlbl as [-> | Hlbl];
              [eauto 6 using lit_matches, matches_alt_l, matches_alt_r|]).
      by apply elem_of_nil in Hlbl.
    + apply matches_seq; [by apply star_chr_matches | by apply plus_chr_matches].
Qed.

Lemma caption_grammar_witness :
  is_Some (rmatch caption_pattern (utf8 "Fig. 3"))
  /\ is_Some (rmatch caption_pattern (utf8 "Table ..."))
  /\ ~ is_Some (rmatch caption_pattern (utf8 "Figure 1")).
Proof.
  split; [|split].
  - apply caption_grammar. exists (utf8 "Fig"), [], (utf8 "."), (utf8 " 3").
    split; [reflexivity|]. split; [right; right; by left|]. split; [constructor|].
    split; [done|]. by repeat constructor.
  - apply caption_grammar. exists (utf8 "Table"), (utf8 " "), (utf8 "..."), [].
    split; [reflexivity|]. split; [right; right; right; by left|].
    split; [by repeat constructor|]. split; [done|]. by repeat constructor.
  - intros [m Hm]. vm_compute in Hm. discriminate Hm.
Defined.

(** ** What the heading loop records *)

Lemma digit_not_dot c : is_digit c = true -> (c =? DOT)%N = false.
Proof.
  intros H. destruct (c =? DOT)%N eqn:E; [|done].
  apply N.eqb_eq in E. subst c. by vm_compute in H.
Qed.

Lemma count_char_app c s1 s2 :
  count_char c (s1 ++ s2) = (count_char c s1 + count_char c s2)%nat.
Proof. induction s1 as [|x s1 IH]; simpl; [done|]. rewrite IH. lia. Qed.

Lemma count_dots_digits d : Forall (fun c => is_digit c = true) d -> count_char DOT d = 0.
Proof.
  induction 1 as [|c d Hc _ IH]; simpl; [done|].
  by rewrite (digit_not_dot _ Hc), IH.
Qed.

Lemma count_dots_parts parts :
  Forall digits parts ->
  count_char DOT (flat_map (fun p => [DOT] ++ p) parts) = length parts.
Proof.
  induction 1 as [|d parts [_ Hd] _ IH]; [done|].
  change (flat_map (fun p => [DOT] ++ p) (d :: parts))
    with ([DOT] ++ d ++ flat_map (fun p => [DOT] ++ p) parts).
  rewrite !count_char_app, IH, (count_dots_digits _ Hd). simpl. lia.
Qed.

Lemma count_dots_numeral parts :
  parts <> [] -> Forall digits parts ->
  (count_char DOT (join [DOT] parts) + 1)%nat = length parts.
Proof.
  intros Hne Hparts. destruct parts as [|d parts]; [done|].
  apply Forall_cons in Hparts as [[_ Hd] Hparts].
  rewrite join_flat, count_char_app, (count_dots_digits _ Hd), count_dots_parts by done.
  simpl. lia.
Qed.

Lemma candidate_well_formed raw e : heading_candidate raw = Some e -> well_formed e.
Proof.
  unfold heading_candidate. intros H.
  destruct (strip raw) as [|a text] eqn:Hraw; [done|].
  destruct (rmatch noise_pattern (a :: text)); [done|].
  destruct (rmatch heading_pattern (a :: text)) as [m|] eqn:Hm; [|done].
  destruct (bool_decide (strip (group 2 m) = []) || (length (strip (group 2 m)) <? 2)%nat)
    eqn:Hshort; [done|].
  injection H as <-.
  apply orb_false_elim in Hshort as [_ Hlen]. apply Nat.ltb_ge in Hlen.
  destruct (heading_shape _ _ Hm)
    as (sep & page & tail & Htext & (parts & Hne & Hparts & Hnum) & Hsep & _ & Hnl & _).
  split; simpl.
  - exists parts. repeat split; try done.
    rewrite Hnum. by apply count_dots_numeral.
  - done.
  - done.
  - apply strip_idempotent.
  - by apply strip_Forall.
  - exists sep, (group 2 m ++ page ++ tail). by split.
  - rewrite <- Hraw. apply strip_idempotent.
Qed.

Lemma collect_outline_candidates max_level texts e :
  e ∈ collect_outline max_level texts -> e ∈ candidates texts.
Proof.
  rewrite collect_accumulate. intros He.
  eapply elem_of_sublist; [exact He | apply accumulate_sublist].
Qed.

Lemma candidates_well_formed texts e : e ∈ candidates texts -> well_formed e.
Proof.
  intros (raw & _ & H)%list_elem_of_omap. by eapply candidate_well_formed.
Qed.

(** X4: every entry of every outline is well formed: its number is a dotted
    numeral and its level the number of the numeral's components (the dots
    plus one); its title is trimmed, at least two characters long and free
    of newlines; its full text is trimmed and starts with the number and a
    blank. *)
Theorem outline_entries_well_formed max_level t :
  Forall well_formed (outline_of_soup max_level t).
Proof.
  apply Forall_forall. intros e He. rewrite outline_of_soup_texts in He.
  apply collect_outline_candidates in He. by eapply candidates_well_formed.
Qed.

(** ** The depth bound *)

Lemma accumulate_depth m m' cs : forall seen seen',
  m <= m' ->
  (forall c, c ∈ cs -> level c = (count_char DOT (number c) + 1)%nat) ->
  (forall n, count_char DOT n + 1 <= m -> n ∈ seen <-> n ∈ seen') ->
  accumulate m seen cs = filter (fun e => level e <= m) (accumulate m' seen' cs).
Proof.
  induction cs as [|c cs IH]; intros seen seen' Hm Hwf Hseen; [done|].
  assert (Hc : level c = (count_char DOT (number c) + 1)%nat) by (apply Hwf; by left).
  assert (Hwf' : forall c', c' ∈ cs -> level c' = (count_char DOT (number c') + 1)%nat)
    by (intros; apply Hwf; by right).
  simpl. destruct (m' <? level c)%nat eqn:H1.
  { apply Nat.ltb_lt in H1.
    assert ((m <? level c)%nat = true) as -> by (apply Nat.ltb_lt; lia). by apply IH. }
  apply Nat.ltb_ge in H1. destruct (m <? level c)%nat eqn:H2.
  - apply Nat.ltb_lt in H2.
    destruct (bool_decide (number c ∈ seen')); [by apply IH|].
    rewrite filter_cons_False by lia. apply IH; [done | done |].
    intros n Hn. rewrite (Hseen n Hn), elem_of_union, elem_of_singleton.
    split; [by right|]. intros [-> | ?]; [lia | done].
  - apply Nat.ltb_ge in H2.
    assert (Hiff : number c ∈ seen <-> number c ∈ seen') by (apply Hseen; lia).
    destruct (bool_decide (number c ∈ seen)) eqn:Hs.
    + apply bool_decide_eq_true in Hs. rewrite bool_decide_eq_true_2 by (by apply Hiff).
      by apply IH.
    + apply bool_decide_eq_false in Hs.
      rewrite bool_decide_eq_false_2 by (by rewrite <- Hiff).
      rewrite filter_cons_True by done. f_equal. apply IH; [done | done |].
      intros n Hn. rewrite !elem_of_union, (Hseen n Hn). done.
Qed.

(** X5: a smaller depth gives the outline of a larger depth with the deeper
    entries left out: a run with max_level 1 lists exactly the level-1
    entries of the run with max_level 2 or 3, in the same order. *)
Theorem outline_depth_restricts m m' texts :
  m <= m' ->
  collect_outline m texts
  = filter (fun e => level e <= m) (collect_outline m' texts).
Proof.
  intros Hm. rewrite !collect_accumulate.
  apply accumulate_depth; [done | apply candidates_level | done].
Qed.

Lemma outline_depth_restricts_witness :
  collect_outline 1 intro_blocks
  = filter (fun e => level e <= 1) (collect_outline 3 intro_blocks).
Proof. apply outline_depth_restricts. lia. Defined.

(** ** Running the loop on its own result *)

Lemma candidate_full_text raw e :
  heading_candidate raw = Some e -> heading_candidate (full_text e) = Some e.
Proof.
  intros H. assert (Hfull : full_text e = strip raw).
  { unfold heading_candidate in H.
    destruct (strip raw) as [|a text]; [done|].
    destruct (rmatch noise_pattern (a :: text)); [done|].
    destruct (rmatch heading_pattern (a :: text)) as [m|]; [|done].
    destruct (bool_decide (strip (group 2 m) = []) || (length (strip (group 2 m)) <? 2)%nat);
      [done|]. by injection H as <-. }
  rewrite <- H, Hfull. unfold heading_candidate. by rewrite strip_idempotent.
Qed.

Lemma candidates_full_text cs :
  (forall e, e ∈ cs -> exists raw, heading_candidate raw = Some e) ->
  candidates (full_text <$> cs) = cs.
Proof.
  unfold candidates. induction cs as [|c cs IH]; intros H; [done|].
  rewrite fmap_cons. simpl.
  destruct (H c) as (raw & Hraw); [by left|].
  rewrite (candidate_full_text _ _ Hraw). f_equal. apply IH.
  intros e He. apply H. by right.
Qed.

Lemma accumulate_fixed m cs : forall seen,
  NoDup (number <$> cs) ->
  (forall e, e ∈ cs -> level e <= m /\ number e ∉ seen) ->
  accumulate m seen cs = cs.
Proof.
  induction cs as [|c cs IH]; intros seen Hnd H; [done|].
  rewrite fmap_cons in Hnd. apply NoDup_cons in Hnd as [Hc Hnd].
  destruct (H c) as [Hl Hs]; [by left|]. simpl.
  assert ((m <? level c)%nat = false) as -> by (apply Nat.ltb_ge; lia).
  rewrite bool_decide_eq_false_2 by done. f_equal. apply IH; [done|].
  intros e He. destruct (H e) as [Hl' Hs']; [by right|]. split; [done|].
  intros [Heq%elem_of_singleton | ?]%elem_of_union; [|done].
  apply Hc. rewrite <- Heq. by apply list_elem_of_fmap_2.
Qed.

(** X6: the loop reproduces its result when it is run again on the full
    texts of the entries it recorded. *)
Theorem outline_reproducible max_level texts :
  collect_outline max_level (full_text <$> collect_outline max_level texts)
  = collect_outline max_level texts.
Proof.
  rewrite (collect_accumulate max_level (full_text <$> _)).
  rewrite candidates_full_text.
  - rewrite collect_accumulate. apply accumulate_fixed; [apply accumulate_NoDup|].
    intros e He. split; [by eapply accumulate_level|]. apply not_elem_of_empty.
  - intros e He%collect_outline_candidates.
    apply list_elem_of_omap in He as (raw & _ & H). by exists raw.
Qed.

(** ** The tag rules of the sanitizer *)

Lemma decompose_each_app lg tags : decompose_each lg tags = lg ++ tags.
Proof.
  unfold decompose_each. revert lg.
  induction tags as [|p tags IH]; intros lg; simpl; [by rewrite app_nil_r|].
  rewrite IH. unfold decompose. by rewrite <- app_assoc.
Qed.

Lemma decomposed_grows lg lg' p :
  decomposed lg p = true -> decomposed (lg ++ lg') p = true.
Proof. intros H. by rewrite decomposed_app, H. Qed.

Lemma decomposed_elem lg p : p ∈ lg -> decomposed lg p = true.
Proof. intros H. apply decomposed_true. by exists p. Qed.

Lemma rule_removes t lg names p nm cs :
  node_at t p = Some (Elem nm cs) -> has_name names nm = true ->
  decomposed (decompose_each lg (find_all t lg names)) p = true.
Proof.
  intros Hp Hnm. rewrite decompose_each_app, decomposed_app.
  destruct (decomposed lg p) eqn:Hd; [done|]. simpl.
  apply decomposed_elem. by eapply find_all_lists.
Qed.

Lemma strip_tags_removes t p nm cs :
  node_at t p = Some (Elem nm cs) -> nm ∈ stripped_tags ->
  decomposed (strip_tags t).1 p = true.
Proof.
  intros Hp Hnm. unfold strip_tags. cbn [fst].
  set (lg1 := decompose_each [] (find_all t [] ["table"])).
  set (lg2 := decompose_each lg1 (find_all t lg1 ["img"])).
  set (lg3 := decompose_each lg2 (find_all t lg2 ["script"; "style"])).
  assert (H1 : has_name ["table"] nm = true -> decomposed lg1 p = true)
    by (intros; by apply (rule_removes t _ _ p nm cs)).
  assert (H2 : has_name ["img"] nm = true -> decomposed lg2 p = true)
    by (intros; by apply (rule_removes t _ _ p nm cs)).
  assert (H3 : has_name ["script"; "style"] nm = true -> decomposed lg3 p = true)
    by (intros; by apply (rule_removes t _ _ p nm cs)).
  assert (H12 : decomposed lg1 p = true -> decomposed lg2 p = true)
    by (intros; unfold lg2; rewrite decompose_each_app; by apply decomposed_grows).
  assert (H23 : decomposed lg2 p = true -> decomposed lg3 p = true)
    by (intros; unfold lg3; rewrite decompose_each_app; by apply decomposed_grows).
  assert (H34 : decomposed lg3 p = true ->
    decomposed (decompose_each lg3
      (find_all t lg3 ["head"; "meta"; "link"; "svg"; "canvas"])) p = true)
    by (intros; rewrite decompose_each_app; by apply decomposed_grows).
  unfold stripped_tags in Hnm.
  repeat (apply elem_of_cons in Hnm as [-> | Hnm];
          [first [ by apply H34, H23, H12, H1 | by apply H34, H23, H2
                 | by apply H34, H3
                 | eapply rule_removes; [exact Hp | reflexivity] ]|]).
  by apply elem_of_nil in Hnm.
Qed.

(** ** The text of a block, text node by text node *)

Lemma leaves_elem pre nm cs : leaves pre (Elem nm cs) = kids_leaves pre 0 cs.
Proof.
  simpl. generalize 0. induction cs as [|c cs IH]; intros i; [done|].
  simpl. by rewrite IH.
Qed.

Lemma leaves_prefix n : forall pre x, x ∈ leaves pre n -> pre `prefix_of` x.1.
Proof.
  induction n as [s | nm cs IH] using node_ind; intros pre x.
  - intros ->%list_elem_of_singleton. done.
  - rewrite leaves_elem. generalize 0.
    induction IH as [|c cs Hc _ IHcs]; intros i; simpl; [by intros ?%elem_of_nil|].
    intros [Hx | Hx]%elem_of_app; [|by eapply IHcs].
    apply Hc in Hx. by eapply prefix_app_l.
Qed.

Lemma live_leaves_app lg ls1 ls2 :
  live_leaves lg (ls1 ++ ls2) = live_leaves lg ls1 ++ live_leaves lg ls2.
Proof. apply filter_app. Qed.

Lemma strings_of_app ls1 ls2 : strings_of (ls1 ++ ls2) = strings_of ls1 ++ strings_of ls2.
Proof. apply flat_map_app. Qed.

Lemma live_leaves_dead lg pre n :
  decomposed lg pre = true -> live_leaves lg (leaves pre n) = [].
Proof.
  intros Hd. unfold live_leaves.
  assert (H : Forall (fun x => ~ decomposed lg x.1 = false) (leaves pre n)).
  { apply Forall_forall. intros x [sfx Hx]%leaves_prefix.
    rewrite Hx, (decomposed_below _ _ sfx Hd). done. }
  induction H as [|x ls Hx _ IH]; [done|]. by rewrite filter_cons_False.
Qed.

(** What [get_text] gives for a node is the strings of its text nodes that
    are still there, in document order. *)
Lemma node_text_leaves lg n : forall pre,
  node_text lg pre n = strings_of (live_leaves lg (leaves pre n)).
Proof.
  induction n as [s | nm cs IH] using node_ind; intros pre.
  - destruct (decomposed lg pre) eqn:Hd.
    + by rewrite node_text_dead, live_leaves_dead.
    + simpl. rewrite Hd. unfold live_leaves. rewrite filter_cons_True by done.
      simpl. by rewrite app_nil_r.
  - destruct (decomposed lg pre) eqn:Hd.
    { by rewrite node_text_dead, live_leaves_dead. }
    rewrite node_text_elem, Hd, leaves_elem. generalize 0.
    induction IH as [|c cs Hc _ IHcs]; intros i; simpl; [done|].
    by rewrite live_leaves_app, strings_of_app, Hc, IHcs.
Qed.

Lemma get_text_leaves t lg q n :
  node_at t q = Some n -> get_text t lg q = strings_of (live_leaves lg (leaves q n)).
Proof. intros Hq. unfold get_text. rewrite Hq. apply node_text_leaves. Qed.

(** X7: after the sanitizer, a table, img, script, style, head, meta, link,
    svg or canvas tag and everything at or below it is gone: it is
    destroyed, its text is empty, and it is not among the blocks of the
    heading loop.  And the text the heading loop reads from any block,
    also one that encloses the tag, is put together from the text nodes of
    the block that are still there, none of which is at or below the tag:
    no string inside the tag reaches the heading loop. *)
Theorem stripped_tags_removed t p nm cs :
  node_at t p = Some (Elem nm cs) -> nm ∈ stripped_tags ->
  let lg := (clean_html_for_outline t).1 in
  (forall q, p `prefix_of` q ->
     decomposed lg q = true /\ get_text t lg q = [] /\ q ∉ find_all t lg block_tags)
  /\ (forall q n, node_at t q = Some n ->
        get_text t lg q = strings_of (live_leaves lg (leaves q n))
        /\ forall x, x ∈ live_leaves lg (leaves q n) -> ~ p `prefix_of` x.1).
Proof.
  intros Hp Hnm lg.
  assert (Hgone : forall q, p `prefix_of` q -> decomposed lg q = true).
  { intros q [sfx ->]. unfold lg, clean_html_for_outline.
    rewrite (surjective_pairing (strip_tags t)).
    apply caption_loop_keeps, decomposed_below. by eapply strip_tags_removes. }
  split.
  - intros q Hq. split; [by apply Hgone|]. split; [by apply get_text_dead, Hgone|].
    intros Hin%find_all_live. rewrite Hgone in Hin; done.
  - intros q n Hq. split; [by apply get_text_leaves|].
    intros x [Hlive _]%list_elem_of_filter Hpre.
    rewrite Hgone in Hlive; done.
Qed.

Lemma stripped_tags_removed_witness :
  get_text table_doc (clean_html_for_outline table_doc).1 [1; 0; 0; 0] = []
  /\ get_text table_doc (clean_html_for_outline table_doc).1 [1]
     = strings_of (live_leaves (clean_html_for_outline table_doc).1
                     (leaves [1] (Elem "table"
                        [Elem "tr" [Elem "td" [paragraph (utf8 "2 Methods")]]]))).
Proof.
  destruct (stripped_tags_removed table_doc [1] "table"
              [Elem "tr" [Elem "td" [paragraph (utf8 "2 Methods")]]])
    as (H1 & H2).
  - reflexivity.
  - by left.
  - split.
    + destruct (H1 [1; 0; 0; 0]) as (_ & H & _); [by exists [0; 0; 0] | exact H].
    + destruct (H2 [1] (Elem "table"
                  [Elem "tr" [Elem "td" [paragraph (utf8 "2 Methods")]]])) as [H _];
        [reflexivity | exact H].
Defined.

(** ** Counting tags *)

Lemma count_in_elem names nm cs :
  count_in names (Elem nm cs)
  = ((if has_name names nm then 1 else 0) + count_tags names cs)%nat.
Proof.
  simpl. f_equal. induction cs as [|c cs IH]; simpl; [done | by rewrite IH].
Qed.

Lemma find_in_count names n : forall pre,
  length (find_in [] names pre n) = count_in names n.
Proof.
  induction n as [s | nm cs IH] using node_ind; intros pre; [done|].
  rewrite find_in_elem, count_in_elem. simpl. rewrite length_app. f_equal.
  { by destruct (has_name names nm). }
  generalize 0. induction IH as [|c cs Hc _ IHcs]; intros i; simpl; [done|].
  by rewrite length_app, Hc, IHcs.
Qed.

Lemma find_all_count names t : length (find_all t [] names) = count_tags names t.
Proof.
  unfold find_all. generalize 0. generalize (@nil nat).
  induction t as [|n t IH]; intros pre i; simpl; [done|].
  by rewrite length_app, find_in_count, IH.
Qed.

(** X8: [tables_removed] is the number of table tags of the parsed
    document, tables inside tables included; the caption loop leaves the
    counters of the tag rules as they are. *)
Theorem tables_removed_counts_all t :
  tables_removed (clean_html_for_outline t).2 = count_tags ["table"] t
  /\ images_removed (clean_html_for_outline t).2 = images_removed (strip_tags t).2
  /\ scripts_removed (clean_html_for_outline t).2 = scripts_removed (strip_tags t).2.
Proof.
  unfold clean_html_for_outline.
  destruct (caption_loop_log t (find_all t (strip_tags t).1 ["p"; "div"])
              (strip_tags t).1 (strip_tags t).2) as (E & _ & _ & _ & _ & H1 & H2 & H3).
  rewrite <- surjective_pairing in H1, H2, H3. rewrite H1. split; [|done].
  unfold strip_tags. cbn [snd tables_removed]. apply find_all_count.
Qed.

(** ** What [find_all] lists are tags of the wanted names *)

Lemma find_kids_inv lg names pre cs : forall i q,
  q ∈ find_kids lg names pre i cs ->
  exists k c, cs !! k = Some c /\ q ∈ find_in lg names (pre ++ [i + k]) c.
Proof.
  induction cs as [|c cs IH]; intros i q; simpl; [by intros ?%elem_of_nil|].
  intros [Hq | Hq]%elem_of_app.
  - exists 0, c. split; [done|]. by rewrite Nat.add_0_r.
  - apply IH in Hq as (k & c' & Hk & Hq). exists (S k), c'. split; [done|].
    by replace (i + S k) with (S i + k) by lia.
Qed.

Lemma find_in_inv lg names n : forall pre q,
  q ∈ find_in lg names pre n ->
  exists sfx nm cs,
    q = pre ++ sfx /\ sub_at n sfx = Some (Elem nm cs) /\ has_name names nm = true.
Proof.
  induction n as [s | nm cs IH] using node_ind; intros pre q.
  - simpl. destruct (decomposed lg pre); by intros ?%elem_of_nil.
  - rewrite find_in_elem. destruct (decomposed lg pre); [by intros ?%elem_of_nil|].
    intros [Hq | Hq]%elem_of_app.
    + destruct (has_name names nm) eqn:Hnm; [|by apply elem_of_nil in Hq].
      apply list_elem_of_singleton in Hq as ->.
      exists [], nm, cs. by rewrite app_nil_r.
    + apply find_kids_inv in Hq as (k & c & Hk & Hq). simpl in Hq.
      rewrite Forall_lookup in IH.
      apply (IH k c Hk) in Hq as (sfx & nm' & cs' & -> & Hsub & Hnm).
      exists (k :: sfx), nm', cs'. rewrite <- app_assoc. split; [done|].
      simpl. by rewrite Hk.
Qed.

Lemma find_all_inv t lg names q :
  q ∈ find_all t lg names ->
  exists nm cs, node_at t q = Some (Elem nm cs) /\ has_name names nm = true.
Proof.
  intros Hq. apply find_kids_inv in Hq as (k & c & Hk & Hq). simpl in Hq.
  apply find_in_inv in Hq as (sfx & nm & cs & -> & Hsub & Hnm).
  exists nm, cs. split; [|done]. simpl. by rewrite Hk.
Qed.

Lemma has_name_elem names nm : has_name names nm = true -> nm ∈ names.
Proof.
  unfold has_name. intros (x & Hx & Heq)%existsb_exists.
  apply String.eqb_eq in Heq as ->. by apply list_elem_of_In.
Qed.

Lemma find_all_paragraph_like t lg p :
  p ∈ find_all t lg ["p"; "div"] -> paragraph_like t p.
Proof.
  intros (nm & cs & Hp & Hnm)%find_all_inv. exists nm, cs. split; [done|].
  apply has_name_elem in Hnm.
  apply elem_of_cons in Hnm as [-> | Hnm]; [by left|].
  apply elem_of_cons in Hnm as [-> | Hnm]; [by right|].
  by apply elem_of_nil in Hnm.
Qed.

Lemma find_all_absent t lg names :
  (forall p nm cs, node_at t p = Some (Elem nm cs) -> nm ∉ names) ->
  find_all t lg names = [].
Proof.
  intros H. apply elem_of_nil_inv. intros q (nm & cs & Hq & Hnm)%find_all_inv.
  apply (H q nm cs Hq). by apply has_name_elem.
Qed.

Lemma prune_elem lg pre nm cs :
  prune lg pre (Elem nm cs) =
  if decomposed lg pre then [] else [Elem nm (prune_kids lg pre 0 cs)].
Proof.
  simpl. destruct (decomposed lg pre); [done|]. do 2 f_equal.
  generalize 0. induction cs as [|c cs IH]; intros i; [done|].
  simpl. by rewrite IH.
Qed.

Lemma prune_nothing n : forall pre, prune [] pre n = [n].
Proof.
  induction n as [s | nm cs IH] using node_ind; intros pre; [done|].
  rewrite prune_elem. simpl. do 2 f_equal.
  generalize 0. induction IH as [|c cs Hc _ IHcs]; intros i; simpl; [done|].
  by rewrite Hc, IHcs.
Qed.

Lemma reduced_nothing t : reduced t [] = t.
Proof.
  unfold reduced. generalize 0. generalize (@nil nat).
  induction t as [|n t IH]; intros pre i; simpl; [done|].
  by rewrite prune_nothing, IH.
Qed.

Lemma caption_or_long_quiet t lg st p :
  ~ fires (strip (get_text t lg p)) -> caption_or_long t (lg, st) p = (lg, st).
Proof.
  intros H. unfold caption_or_long.
  destruct (rmatch caption_pattern _) eqn:Hm.
  { destruct H. left. by rewrite Hm. }
  destruct (200 <? _)%nat eqn:Hlen; [|done].
  destruct H. right. by apply Nat.ltb_lt.
Qed.

Lemma caption_loop_quiet t L lg st :
  (forall p, p ∈ L -> ~ fires (strip (get_text t lg p))) ->
  fold_left (caption_or_long t) L (lg, st) = (lg, st).
Proof.
  induction L as [|p L IH]; intros H; cbn [fold_left]; [done|].
  rewrite caption_or_long_quiet by (apply H; by left).
  apply IH. intros q Hq. apply H. by right.
Qed.

(** X9: on a document with none of the tags of the tag rules, and no [p]
    or [div] whose trimmed text is a caption or longer than 200 characters,
    the sanitizer destroys nothing: all five counters are zero and the tree
    that is left is the parsed one. *)
Theorem clean_document_untouched t :
  clean_document t ->
  clean_html_for_outline t = ([], mkStats 0 0 0 0 0)
  /\ reduced t (clean_html_for_outline t).1 = t.
Proof.
  intros [Htags Hquiet].
  assert (Habs : forall lg names, (forall nm, nm ∈ names -> nm ∈ stripped_tags) ->
                   find_all t lg names = []).
  { intros lg names Hsub. apply find_all_absent. intros p nm cs Hp Hnm.
    by apply (Htags p nm cs Hp), Hsub. }
  assert (H4 : strip_tags t = ([], mkStats 0 0 0 0 0)).
  { unfold strip_tags.
    rewrite (Habs [] ["table"]) by
      (intros nm Hnm; unfold stripped_tags;
       repeat (apply elem_of_cons in Hnm as [-> | Hnm];
               [repeat first [by left | right]|]); by apply elem_of_nil in Hnm).
    cbn [decompose_each fold_left].
    rewrite (Habs [] ["img"]) by
      (intros nm Hnm; unfold stripped_tags;
       repeat (apply elem_of_cons in Hnm as [-> | Hnm];
               [repeat first [by left | right]|]); by apply elem_of_nil in Hnm).
    cbn [decompose_each fold_left].
    rewrite (Habs [] ["script"; "style"]) by
      (intros nm Hnm; unfold stripped_tags;
       repeat (apply elem_of_cons in Hnm as [-> | Hnm];
               [repeat first [by left | right]|]); by apply elem_of_nil in Hnm).
    cbn [decompose_each fold_left].
    rewrite (Habs [] ["head"; "meta"; "link"; "svg"; "canvas"]) by
      (intros nm Hnm; unfold stripped_tags;
       repeat (apply elem_of_cons in Hnm as [-> | Hnm];
               [repeat first [by left | right]|]); by apply elem_of_nil in Hnm).
    done. }
  assert (H : clean_html_for_outline t = ([], mkStats 0 0 0 0 0)).
  { unfold clean_html_for_outline. rewrite H4. cbn [fst].
    apply caption_loop_quiet. intros p Hp.
    by apply Hquiet, (find_all_paragraph_like t []). }
  split; [done|]. rewrite H. apply reduced_nothing.
Qed.

Lemma clean_document_untouched_witness :
  clean_html_for_outline intro_doc = ([], mkStats 0 0 0 0 0)
  /\ reduced intro_doc (clean_html_for_outline intro_doc).1 = intro_doc.
Proof.
  apply clean_document_untouched. split.
  - intros p nm cs Hp.
    assert (Hnm : nm = "p"%string).
    { destruct p as [|i [|j [|k p]]]; [done | | |].
      - do 5 (destruct i as [|i]; [by injection Hp as <- _|]). done.
      - do 5 (destruct i as [|i]; [by destruct j|]). done.
      - do 5 (destruct i as [|i]; [by destruct j|]). done. }
    subst nm. unfold stripped_tags.
    repeat (apply not_elem_of_cons; split; [done|]). apply not_elem_of_nil.
  - intros p (nm & cs & Hp & _) Hf.
    destruct p as [|i [|j p]]; [done | |].
    + do 5 (destruct i as [|i];
        [destruct Hf as [[m Hm] | Hlen]; [by vm_compute in Hm | vm_compute in Hlen; lia]|]).
      done.
    + do 5 (destruct i as [|i]; [by destruct j, p|]). done.
Defined.

(** ** Trimming and destroying only take characters away *)

Lemma lstrip_sublist (a b : str) : a `sublist_of` b -> lstrip a `sublist_of` lstrip b.
Proof.
  induction 1 as [|x a b Hab IH|x a b Hab IH]; simpl; [done | |].
  - destruct (is_space x); [done | by constructor].
  - destruct (is_space x); [done|].
    apply sublist_cons. etrans; [|exact Hab].
    destruct (lstrip_suffix a) as (w & Hw & _).
    rewrite Hw at 2. by apply sublist_inserts_l.
Qed.

Lemma rev_sublist (a b : str) : a `sublist_of` b -> rev a `sublist_of` rev b.
Proof.
  induction 1 as [|x a b Hab IH|x a b Hab IH]; simpl; [done | |].
  - by apply sublist_app.
  - by apply sublist_inserts_r.
Qed.

Lemma strip_sublist (a b : str) : a `sublist_of` b -> strip a `sublist_of` strip b.
Proof.
  intros H. unfold strip, rstrip. by apply rev_sublist, lstrip_sublist, rev_sublist, lstrip_sublist.
Qed.

Lemma node_text_shrinks lg lg' n : forall pre,
  (forall q, decomposed lg q = true -> decomposed lg' q = true) ->
  node_text lg' pre n `sublist_of` node_text lg pre n.
Proof.
  induction n as [s | nm cs IH] using node_ind; intros pre H.
  - simpl. destruct (decomposed lg' pre) eqn:H'; [apply sublist_nil_l|].
    destruct (decomposed lg pre) eqn:H0; [|done].
    apply H in H0. congruence.
  - rewrite !node_text_elem.
    destruct (decomposed lg' pre) eqn:H'; [apply sublist_nil_l|].
    destruct (decomposed lg pre) eqn:H0; [apply H in H0; congruence|].
    generalize 0. induction IH as [|c cs Hc _ IHcs]; intros i; simpl; [done|].
    apply sublist_app; [by apply Hc | apply IHcs].
Qed.

Lemma get_text_shrinks t lg lg' p :
  (forall q, decomposed lg q = true -> decomposed lg' q = true) ->
  get_text t lg' p `sublist_of` get_text t lg p.
Proof.
  intros H. unfold get_text. destruct (node_at t p); [|done]. by apply node_text_shrinks.
Qed.

Lemma fires_dec text : fires text \/ ~ fires text.
Proof.
  unfold fires. destruct (rmatch caption_pattern text) eqn:Hm.
  { left. left. by eexists. }
  destruct (le_lt_dec (length text) 200) as [Hle | Hlt]; [|left; by right].
  right. intros [[m Hm'] | Hlen]; [done | lia].
Qed.

(** A block of the caption loop that is there when the loop ends passed
    both tests at its turn; what was destroyed after its turn only made its
    text shorter. *)
Lemma caption_loop_survivor t L lg st p :
  p ∈ L ->
  decomposed (fold_left (caption_or_long t) L (lg, st)).1 p = false ->
  (length (strip (get_text t (fold_left (caption_or_long t) L (lg, st)).1 p)) <= 200)%nat.
Proof.
  intros Hp Hlive.
  apply list_elem_of_split in Hp as (L1 & L2 & ->).
  revert Hlive. rewrite fold_left_app. cbn [fold_left].
  destruct (caption_loop_log t L1 lg st) as (E & HE & _).
  destruct (fold_left (caption_or_long t) L1 (lg, st)) as [lg1 st1] eqn:Hfold.
  simpl in HE. subst lg1. intros Hlive.
  destruct (decomposed (lg ++ E) p) eqn:Hdead.
  { rewrite caption_or_long_dead in Hlive by done.
    by rewrite caption_loop_keeps in Hlive. }
  destruct (fires_dec (strip (get_text t (lg ++ E) p))) as [Hf | Hf].
  { pose proof (caption_or_long_fires t (lg ++ E) st1 p Hf) as Hstep.
    destruct (caption_or_long t (lg ++ E, st1) p) as [lg2 st2]. simpl in Hstep. subst lg2.
    rewrite caption_loop_keeps in Hlive; [done | apply decomposed_self]. }
  rewrite caption_or_long_quiet in * by done.
  destruct (caption_loop_log t L2 (lg ++ E) st1) as (E2 & -> & _).
  assert (Hlen : (length (strip (get_text t (lg ++ E) p)) <= 200)%nat).
  { destruct (le_lt_dec (length (strip (get_text t (lg ++ E) p))) 200); [done|].
    destruct Hf. by right. }
  etrans; [|exact Hlen].
  apply sublist_length, strip_sublist, get_text_shrinks.
  intros q Hq. by apply decomposed_grows.
Qed.

(** X10: every [p] or [div] block that is still there after the sanitizer
    has a trimmed text of at most 200 characters, the text being the one the
    heading loop reads. *)
Theorem surviving_paragraphs_short t p :
  paragraph_like t p ->
  let lg := (clean_html_for_outline t).1 in
  decomposed lg p = false ->
  (length (strip (get_text t lg p)) <= 200)%nat.
Proof.
  intros (nm & cs & Hp & Hnm) lg Hlive. unfold lg in *. clear lg.
  unfold clean_html_for_outline in *.
  rewrite (surjective_pairing (strip_tags t)) in *. cbn [fst] in *.
  apply caption_loop_survivor; [|done].
  eapply find_all_lists; [exact Hp | by destruct Hnm as [-> | ->] |].
  destruct (decomposed (strip_tags t).1 p) eqn:Hd; [|done].
  by rewrite caption_loop_keeps in Hlive.
Qed.

Lemma surviving_paragraphs_short_witness :
  (length (strip (get_text intro_doc (clean_html_for_outline intro_doc).1 [0])) <= 200)%nat.
Proof.
  apply surviving_paragraphs_short.
  - exists "p"%string, [Text (utf8 "1 Introduction")]. split; [reflexivity | by left].
  - reflexivity.
Defined.

(** ** The outline along the document *)

Lemma outline_step_extends max_level acc raw :
  acc.1 `prefix_of` (outline_step max_level acc raw).1.
Proof.
  unfold outline_step.
  repeat match goal with
         | |- context [match ?x with _ => _ end] => destruct x
         end; first [done | by apply prefix_app_r].
Qed.

Lemma outline_loop_extends max_level texts : forall acc,
  acc.1 `prefix_of` (fold_left (outline_step max_level) texts acc).1.
Proof.
  induction texts as [|x texts IH]; intros acc; cbn [fold_left]; [done|].
  etrans; [apply outline_step_extends | apply IH].
Qed.

(** X11: the outline of a document is built front to back: the outline of
    the first blocks is the beginning of the outline of all blocks; what
    comes later in a document removes no entry and changes none. *)
Theorem outline_grows max_level texts more :
  collect_outline max_level texts `prefix_of` collect_outline max_level (texts ++ more).
Proof.
  unfold collect_outline. rewrite fold_left_app. apply outline_loop_extends.
Qed.

(** ** What the sanitizer destroys *)

Lemma rule_log_tags t lg names q :
  q ∈ decompose_each lg (find_all t lg names) ->
  q ∈ lg \/ exists nm cs, node_at t q = Some (Elem nm cs) /\ nm ∈ names.
Proof.
  rewrite decompose_each_app. intros [Hq | Hq]%elem_of_app; [by left | right].
  apply find_all_inv in Hq as (nm & cs & Hq & Hnm). exists nm, cs.
  split; [done | by apply has_name_elem].
Qed.

Lemma strip_tags_log t q :
  q ∈ (strip_tags t).1 ->
  exists nm cs, node_at t q = Some (Elem nm cs) /\ nm ∈ stripped_tags.
Proof.
  unfold strip_tags. cbn [fst]. unfold stripped_tags.
  intros [Hq | (nm & cs & Hq & Hnm)]%rule_log_tags.
  2: { exists nm, cs. split; [done|].
       repeat (apply elem_of_cons in Hnm as [-> | Hnm];
               [repeat first [by left | right]|]). by apply elem_of_nil in Hnm. }
  apply rule_log_tags in Hq as [Hq | (nm & cs & Hq & Hnm)].
  2: { exists nm, cs. split; [done|].
       repeat (apply elem_of_cons in Hnm as [-> | Hnm];
               [repeat first [by left | right]|]). by apply elem_of_nil in Hnm. }
  apply rule_log_tags in Hq as [Hq | (nm & cs & Hq & Hnm)].
  2: { exists nm, cs. split; [done|].
       repeat (apply elem_of_cons in Hnm as [-> | Hnm];
               [repeat first [by left | right]|]). by apply elem_of_nil in Hnm. }
  apply rule_log_tags in Hq as [Hq | (nm & cs & Hq & Hnm)].
  2: { exists nm, cs. split; [done|].
       repeat (apply elem_of_cons in Hnm as [-> | Hnm];
               [repeat first [by left | right]|]). by apply elem_of_nil in Hnm. }
  by apply elem_of_nil in Hq.
Qed.

(** X12: the sanitizer destroys nothing but the tags of the tag rules, [p]
    and [div] tags, and what is inside them: a node that is gone has such a
    tag at or above it.  A heading tag outside of all of them is therefore
    still there for the heading loop. *)
Theorem only_listed_tags_destroyed t p :
  decomposed (clean_html_for_outline t).1 p = true ->
  exists q nm cs,
    q `prefix_of` p /\ node_at t q = Some (Elem nm cs)
    /\ nm ∈ stripped_tags ++ ["p"; "div"]%string.
Proof.
  intros (q & Hq & Hpre)%decomposed_true. exists q.
  unfold clean_html_for_outline in Hq.
  destruct (caption_loop_log t (find_all t (strip_tags t).1 ["p"; "div"])
              (strip_tags t).1 (strip_tags t).2) as (E & HE & Hsub & _).
  rewrite <- surjective_pairing in HE. rewrite HE in Hq.
  apply elem_of_app in Hq as [Hq | Hq].
  - apply strip_tags_log in Hq as (nm & cs & Hq & Hnm). exists nm, cs.
    split; [done|]. split; [done|]. apply elem_of_app. by left.
  - apply Hsub, find_all_inv in Hq as (nm & cs & Hq & Hnm). exists nm, cs.
    split; [done|]. split; [done|]. apply elem_of_app. right. by apply has_name_elem.
Qed.

Lemma only_listed_tags_destroyed_witness :
  exists q nm cs,
    q `prefix_of` [1; 0; 0; 0] /\ node_at table_doc q = Some (Elem nm cs)
    /\ nm ∈ stripped_tags ++ ["p"; "div"]%string.
Proof. apply only_listed_tags_destroyed. reflexivity. Defined.

(** ** The lines of the text and Markdown renderings *)

Lemma split_lines_app l s :
  Forall (fun c => c <> NL) l -> split_lines (l ++ NL :: s) = l :: split_lines s.
Proof.
  induction 1 as [|c l Hc _ IH]; simpl; [done|].
  apply N.eqb_neq in Hc. by rewrite Hc, IH.
Qed.

Lemma split_lines_line l : Forall (fun c => c <> NL) l -> split_lines l = [l].
Proof.
  induction 1 as [|c l Hc _ IH]; simpl; [done|].
  apply N.eqb_neq in Hc. by rewrite Hc, IH.
Qed.

Lemma split_join lines :
  lines <> [] -> Forall (Forall (fun c => c <> NL)) lines ->
  split_lines (join [NL] lines) = lines.
Proof.
  intros Hne H. induction H as [|l lines Hl Hlines IH]; [done|].
  destruct lines as [|l' lines]; [by apply split_lines_line|].
  change (join [NL] (l :: l' :: lines)) with (l ++ NL :: join [NL] (l' :: lines)).
  rewrite split_lines_app by done. f_equal. by apply IH.
Qed.

Lemma repeat_str_Forall (P : char -> Prop) s n :
  Forall P s -> Forall P (repeat_str s n).
Proof. intros H. induction n as [|n IH]; simpl; [done|]. by apply Forall_app. Qed.

Lemma digit_not_nl c : is_digit c = true -> c <> NL.
Proof. intros H ->. by vm_compute in H. Qed.

Lemma digit_not_space c : is_digit c = true -> c <> SPACE.
Proof. intros H ->. by vm_compute in H. Qed.

Lemma numeral_chars parts :
  Forall digits parts ->
  Forall (fun c => is_digit c = true \/ c = DOT) (join [DOT] parts).
Proof.
  intros H. destruct parts as [|d parts]; [done|].
  apply Forall_cons in H as [[_ Hd] H]. rewrite join_flat. apply Forall_app. split.
  { eapply Forall_impl; [exact Hd|]. by left. }
  induction H as [|d' parts [_ Hd'] _ IH]; [done|].
  change (flat_map (fun p => [DOT] ++ p) (d' :: parts))
    with (DOT :: d' ++ flat_map (fun p => [DOT] ++ p) parts).
  constructor; [by right|]. apply Forall_app. split; [|done].
  eapply Forall_impl; [exact Hd'|]. by left.
Qed.

Lemma number_chars e :
  well_formed e -> Forall (fun c => c <> NL /\ c <> SPACE) (number e).
Proof.
  intros [(parts & _ & Hparts & -> & _) _ _ _ _ _ _].
  eapply Forall_impl; [by apply numeral_chars|].
  intros c [Hc | ->]; [|done].
  split; [by apply digit_not_nl | by apply digit_not_space].
Qed.

Lemma text_line_one_line e : well_formed e -> Forall (fun c => c <> NL) (text_line e).
Proof.
  intros He. unfold text_line. repeat (apply Forall_app; split).
  - apply repeat_str_Forall. by repeat constructor.
  - eapply Forall_impl; [by apply number_chars|]. by intros c [? ?].
  - by repeat constructor.
  - by destruct He.
Qed.

Lemma markdown_lines_one_line e :
  well_formed e -> Forall (Forall (fun c => c <> NL)) (markdown_lines e).
Proof.
  intros He. unfold markdown_lines. repeat constructor.
  repeat (apply Forall_app; split).
  - apply repeat_str_Forall. by repeat constructor.
  - by repeat constructor.
  - eapply Forall_impl; [by apply number_chars|]. by intros c [? ?].
  - by repeat constructor.
  - by destruct He.
Qed.

Lemma outline_well_formed max_level t e :
  e ∈ outline_of_soup max_level t -> well_formed e.
Proof.
  rewrite outline_of_soup_texts. intros He.
  apply collect_outline_candidates in He. by eapply candidates_well_formed.
Qed.

(** X13: in the text rendering of an outline of a document, every entry
    stands on a line of its own: splitting the rendering at the newlines
    gives back the entries' lines, one for one and in order. *)
Theorem text_outline_lines max_level t :
  outline_of_soup max_level t <> [] ->
  split_lines (generate_text_outline (outline_of_soup max_level t))
  = map text_line (outline_of_soup max_level t).
Proof.
  intros Hne. unfold generate_text_outline. apply split_join.
  - by destruct (outline_of_soup max_level t).
  - apply Forall_forall. intros l Hl. apply list_elem_of_In, in_map_iff in Hl as (e & <- & He).
    apply list_elem_of_In in He. eapply text_line_one_line, outline_well_formed, He.
Qed.

Lemma text_outline_lines_witness :
  split_lines (generate_text_outline (outline_of_soup 2 intro_doc))
  = map text_line (outline_of_soup 2 intro_doc).
Proof. apply text_outline_lines. by vm_compute. Defined.

(** X14: the Markdown rendering of an outline of a document consists of the
    title line, an empty line, and for every entry its heading line and an
    empty line, in order; no entry takes more than its own line. *)
Theorem markdown_outline_lines max_level t :
  split_lines (generate_markdown_outline (outline_of_soup max_level t))
  = [utf8 "# 文档大纲"; []] ++ flat_map markdown_lines (outline_of_soup max_level t).
Proof.
  unfold generate_markdown_outline. apply split_join; [done|].
  apply Forall_app. split.
  { repeat constructor; by apply (bool_decide_unpack _). }
  apply Forall_forall. intros l Hl.
  apply list_elem_of_In, in_flat_map in Hl as (e & He & Hl).
  apply list_elem_of_In in He, Hl.
  apply outline_well_formed, markdown_lines_one_line in He.
  rewrite Forall_forall in He. by apply He.
Qed.

(** ** Reading an entry back from its line *)

Lemma repeat_str_replicate (c : char) k n :
  repeat_str (replicate k c) n = replicate (k * n) c.
Proof.
  induction n as [|n IH]; simpl; [by rewrite Nat.mul_0_r|].
  rewrite IH, <- replicate_add. f_equal. lia.
Qed.

(** A run of one character, closed by another character, is read back in
    one way only. *)
Lemma run_then_other (c : char) a b x y (r r' : str) :
  x <> c -> y <> c ->
  replicate a c ++ x :: r = replicate b c ++ y :: r' -> a = b /\ x :: r = y :: r'.
Proof.
  intros Hx Hy. revert b. induction a as [|a IH]; intros [|b]; simpl; intros H.
  - done.
  - injection H as -> _. done.
  - injection H as <- _. done.
  - injection H as H. apply IH in H as [-> H]. done.
Qed.

(** A word without a given character, closed by that character, is read
    back in one way only. *)
Lemma word_closed_by (sep : char) (n1 n2 t1 t2 : str) :
  Forall (fun c => c <> sep) n1 -> Forall (fun c => c <> sep) n2 ->
  n1 ++ sep :: t1 = n2 ++ sep :: t2 -> n1 = n2 /\ t1 = t2.
Proof.
  intros H1. revert n2. induction H1 as [|c n1 Hc _ IH]; intros n2 H2 H.
  - destruct H2 as [|c' n2 Hc' _]; simpl in H; [by injection H|].
    injection H as <- _. done.
  - destruct H2 as [|c' n2 Hc' H2]; simpl in H.
    + injection H as -> _. done.
    + injection H as -> H. apply IH in H as [-> ->]; done.
Qed.

Lemma number_head e :
  well_formed e -> exists c n, number e = c :: n /\ is_digit c = true.
Proof.
  intros [(parts & Hne & Hparts & Hnum & _) _ _ _ _ _ _]. rewrite Hnum.
  destruct parts as [|d parts]; [done|].
  apply Forall_cons in Hparts as [[Hd1 Hd2] _]. rewrite join_flat.
  destruct d as [|c d]; [done|]. apply Forall_cons in Hd2 as [Hc _].
  by exists c, (d ++ flat_map (fun p => [DOT] ++ p) parts).
Qed.

Lemma number_no_space e : well_formed e -> Forall (fun c => c <> SPACE) (number e).
Proof.
  intros He. eapply Forall_impl; [by apply number_chars|]. by intros c [? ?].
Qed.

Lemma well_formed_level e : well_formed e -> (1 <= level e)%nat.
Proof. intros [_ -> _ _ _ _ _]. lia. Qed.

(** X15: the line of the text rendering tells the number, the title and the
    level of a well-formed entry: two entries with the same line agree on
    all three. *)
Theorem text_line_lossless e1 e2 :
  well_formed e1 -> well_formed e2 ->
  text_line e1 = text_line e2 ->
  number e1 = number e2 /\ title e1 = title e2 /\ level e1 = level e2.
Proof.
  intros H1 H2. unfold text_line.
  change (utf8 "  ") with (replicate 2 SPACE). change (utf8 " ") with [SPACE].
  rewrite !repeat_str_replicate.
  destruct (number_head e1 H1) as (c1 & n1 & Hn1 & Hc1).
  destruct (number_head e2 H2) as (c2 & n2 & Hn2 & Hc2).
  pose proof (number_no_space e1 H1) as Hs1. pose proof (number_no_space e2 H2) as Hs2.
  rewrite Hn1, Hn2 in *. simpl app. intros H.
  apply run_then_other in H as [Hlev H];
    [|by apply digit_not_space | by apply digit_not_space].
  apply (word_closed_by SPACE (c1 :: n1) (c2 :: n2)) in H as [-> ->]; [|done..].
  apply well_formed_level in H1, H2. repeat split; lia.
Qed.

Lemma text_line_lossless_witness :
  let e1 := mkEntry (utf8 "1.1") (utf8 "Background") 2 (utf8 "1.1 Background") in
  let e2 := mkEntry (utf8 "1.1") (utf8 "Background") 2 (utf8 "1.1   Background 12") in
  number e1 = number e2 /\ title e1 = title e2 /\ level e1 = level e2.
Proof.
  intros e1 e2. apply (text_line_lossless e1 e2).
  - apply (candidate_well_formed (utf8 "1.1 Background")). vm_compute. reflexivity.
  - apply (candidate_well_formed (utf8 "1.1   Background 12")). vm_compute. reflexivity.
  - reflexivity.
Defined.

(** X16: the heading line of the Markdown rendering tells the number, the
    title and the level of a well-formed entry: two entries with the same
    lines agree on all three. *)
Theorem markdown_line_lossless e1 e2 :
  well_formed e1 -> well_formed e2 ->
  markdown_lines e1 = markdown_lines e2 ->
  number e1 = number e2 /\ title e1 = title e2 /\ level e1 = level e2.
Proof.
  intros H1 H2. unfold markdown_lines.
  change (utf8 "#") with (replicate 1 HASH). change (utf8 " ") with [SPACE].
  rewrite !repeat_str_replicate. intros H. injection H as H. simpl app in H.
  apply run_then_other in H as [Hlev H]; [|done..]. injection H as H.
  apply word_closed_by in H as [-> ->];
    [|by apply number_no_space | by apply number_no_space].
  repeat split; lia.
Qed.

Lemma markdown_line_lossless_witness :
  let e1 := mkEntry (utf8 "2") (utf8 "Methods") 1 (utf8 "2 Methods") in
  let e2 := mkEntry (utf8 "2") (utf8 "Methods") 1 (utf8 "2 Methods 7") in
  number e1 = number e2 /\ title e1 = title e2 /\ level e1 = level e2.
Proof.
  intros e1 e2. apply (markdown_line_lossless e1 e2).
  - apply (candidate_well_formed (utf8 "2 Methods")). vm_compute. reflexivity.
  - apply (candidate_well_formed (utf8 "2 Methods 7")). vm_compute. reflexivity.
  - reflexivity.
Defined.

(** ** Runs of [extract_outline] and of the driver *)

Section DriverRunsOn.

Variable html_parser : str -> soup.

(** X17: a pass of [extract_outline] opens no file for reading but the
    input and no file for writing but the output file, and none at all for
    writing when the output path is missing or empty.  A pass that goes to
    its end read the input once and returns the outline of what it read,
    whatever the format and the output file are; it wrote the rendering to
    the output file and nothing else, or nothing; it printed the counters
    of the sanitizer and then the rendering, or where it saved it. *)
Theorem extract_outline_frame {W : Type} (sys : system W)
    html_file output_file format max_level w :
  opens_only [html_file] (output_files output_file)
    (extract_outline html_parser html_file output_file format max_level)
  /\ forall tr o w',
       run_io sys (extract_outline html_parser html_file output_file format max_level) w
       = (tr, Some (o, w')) ->
       exists content,
         o = outline_of_soup max_level (html_parser content)
         /\ reads tr = [(html_file, content)]
         /\ writes tr = match truthy output_file with
                        | Some f => [(f, render format o)]
                        | None => []
                        end
         /\ printed tr
            = cleaning_report (clean_html_for_outline (html_parser content)).2
              ++ [match truthy output_file with
                  | Some f => utf8 "大纲已保存到: " ++ f
                  | None => render format o
                  end].
Proof.
  split; [apply extract_outline_opens|]. intros tr o w' Hrun.
  apply extract_outline_complete in Hrun as (content & -> & ->). exists content.
  split; [done|]. split; [apply pass_reads|]. split; [apply pass_writes | apply pass_printed].
Qed.

(** X18: when the driver gets to read nothing, because the input is
    missing or cannot be read or decoded at the first pass, the run ends
    there: no file was written, no write was tried, and nothing was printed
    but, at most, the line that announces the extraction. *)
Theorem unreadable_input_writes_nothing {W : Type} (sys : system W) args w tr r :
  run_io sys (main html_parser args) w = (tr, r) ->
  reads tr = [] ->
  r = None /\ writes tr = [] /\ (forall f text, Write_failed f text ∉ tr)
  /\ (length (printed tr) <= 1)%nat.
Proof.
  unfold main. cbv zeta. rewrite run_io_bind. cbn [run_io print].
  destruct (sys_print sys _ w) as [w0|].
  2: { intros H _. injection H as <- <-. repeat split; [|simpl; lia].
       intros f text [H | H%elem_of_nil]%elem_of_cons; done. }
  rewrite run_io_bind. unfold extract_outline at 1. rewrite run_io_bind.
  cbn [run_io read_file].
  destruct (sys_read sys (input_file args) w0) as [[content w1]|].
  2: { intros H _. injection H as <- <-. repeat split; [|simpl; lia].
       intros f text [H | [H | H%elem_of_nil]%elem_of_cons]%elem_of_cons; done. }
  intros H Hreads. exfalso.
  destruct (run_io sys _ w1) as [tra [[a wa]|]];
    [destruct (run_io sys _ wa) as [trb rb]|]; injection H as <- _; discriminate Hreads.
Qed.

End DriverRunsOn.

Lemma extract_outline_frame_witness :
  exists tr o w',
    run_io memory
      (extract_outline one_paragraph (utf8 "report.html") (Some (utf8 "out.md"))
         (utf8 "markdown") 2) report_world
    = (tr, Some (o, w'))
    /\ reads tr = [(utf8 "report.html", utf8 "1 Introduction")]
    /\ writes tr = [(utf8 "out.md", generate_markdown_outline o)].
Proof.
  assert (E : exists tr o w',
            run_io memory
              (extract_outline one_paragraph (utf8 "report.html") (Some (utf8 "out.md"))
                 (utf8 "markdown") 2) report_world
            = (tr, Some (o, w')))
    by (eexists _, _, _; vm_compute; reflexivity).
  destruct E as (tr & o & w' & E). exists tr, o, w'. split; [exact E|].
  destruct (extract_outline_frame one_paragraph memory (utf8 "report.html")
              (Some (utf8 "out.md")) (utf8 "markdown") 2 report_world) as [_ Hrun].
  destruct (Hrun tr o w' E) as (content & Ho & Hr & Hw & _).
  assert (Hreads : reads tr
                   = reads (run_io memory
                              (extract_outline one_paragraph (utf8 "report.html")
                                 (Some (utf8 "out.md")) (utf8 "markdown") 2)
                              report_world).1) by (by rewrite E).
  split; [rewrite Hreads; vm_compute; reflexivity|]. exact Hw.
Defined.

Lemma unreadable_input_writes_nothing_witness :
  (run_io memory (main one_paragraph report_args) (mkWorld ∅ [])).2 = None
  /\ writes (run_io memory (main one_paragraph report_args) (mkWorld ∅ [])).1 = [].
Proof.
  destruct (unreadable_input_writes_nothing one_paragraph memory report_args
              (mkWorld ∅ [])
              (run_io memory (main one_paragraph report_args) (mkWorld ∅ [])).1
              (run_io memory (main one_paragraph report_args) (mkWorld ∅ [])).2)
    as (Hr & Hw & _).
  - apply surjective_pairing.
  - vm_compute. reflexivity.
  - split; [exact Hr | exact Hw].
Defined.

(** ** The JSON rendering loses nothing *)

Lemma small_chars (P : N -> Prop) :
  (forall n, n < 32 -> P (N.of_nat n)) -> forall c, (c < 0x20)%N -> P c.
Proof.
  intros H c Hc. rewrite <- (N2Nat.id c). apply H. lia.
Qed.

Lemma json_unescape_escape c rest :
  json_unescape (json_escape c ++ rest) = Some (c, rest).
Proof.
  unfold json_escape.
  destruct (N.eqb_spec c QUOTE) as [-> | H1]; [done|].
  destruct (N.eqb_spec c BACKSLASH) as [-> | H2]; [done|].
  destruct (N.eqb_spec c 0x0A) as [-> | H3]; [done|].
  destruct (N.eqb_spec c 0x0D) as [-> | H4]; [done|].
  destruct (N.eqb_spec c 0x09) as [-> | H5]; [done|].
  destruct (N.eqb_spec c 0x08) as [-> | H6]; [done|].
  destruct (N.eqb_spec c 0x0C) as [-> | H7]; [done|].
  destruct (N.ltb_spec c 0x20) as [Hlt | Hge].
  - revert rest. pattern c. apply small_chars; [|done].
    intros n Hn rest. do 32 (destruct n as [|n]; [reflexivity|]). lia.
  - simpl. apply N.eqb_neq in H2. by rewrite H2.
Qed.

Lemma json_escape_head c rest : exists x r, json_escape c ++ rest = x :: r /\ x <> QUOTE.
Proof.
  assert (Hb : BACKSLASH <> QUOTE) by (intros H; discriminate H).
  unfold json_escape.
  destruct (c =? QUOTE)%N eqn:H1; [eexists _, _; split; [reflexivity | exact Hb]|].
  destruct (c =? BACKSLASH)%N; [eexists _, _; split; [reflexivity | exact Hb]|].
  destruct (c =? 10)%N; [eexists _, _; split; [reflexivity | exact Hb]|].
  destruct (c =? 13)%N; [eexists _, _; split; [reflexivity | exact Hb]|].
  destruct (c =? 9)%N; [eexists _, _; split; [reflexivity | exact Hb]|].
  destruct (c =? 8)%N; [eexists _, _; split; [reflexivity | exact Hb]|].
  destruct (c =? 12)%N; [eexists _, _; split; [reflexivity | exact Hb]|].
  destruct (c <? 32)%N; [eexists _, _; split; [reflexivity | exact Hb]|].
  eexists _, _. split; [reflexivity|]. by apply N.eqb_neq.
Qed.

(** The characters of a JSON string, closed by the quote, are read back in
    one way only. *)
Lemma json_chars_closed s1 : forall s2 r1 r2,
  flat_map json_escape s1 ++ QUOTE :: r1 = flat_map json_escape s2 ++ QUOTE :: r2 ->
  s1 = s2 /\ r1 = r2.
Proof.
  induction s1 as [|c1 s1 IH]; intros [|c2 s2] r1 r2; simpl; intros H.
  - by injection H.
  - rewrite <- app_assoc in H.
    destruct (json_escape_head c2 (flat_map json_escape s2 ++ QUOTE :: r2))
      as (x & r & Hx & Hq). rewrite Hx in H. injection H as Heq _.
    destruct Hq. by symmetry.
  - rewrite <- app_assoc in H.
    destruct (json_escape_head c1 (flat_map json_escape s1 ++ QUOTE :: r1))
      as (x & r & Hx & Hq). rewrite Hx in H. injection H as Heq _.
    by destruct Hq.
  - rewrite <- !app_assoc in H. apply (f_equal json_unescape) in H.
    rewrite !json_unescape_escape in H. injection H as -> H.
    apply IH in H as [-> ->]. done.
Qed.

Lemma json_string_closed s1 s2 r1 r2 :
  json_string s1 ++ r1 = json_string s2 ++ r2 -> s1 = s2 /\ r1 = r2.
Proof.
  unfold json_string. simpl. rewrite <- !app_assoc. simpl. intros H.
  injection H as H. by apply json_chars_closed.
Qed.

Lemma utf8_bytes_inj s1 : forall s2, utf8_bytes s1 = utf8_bytes s2 -> s1 = s2.
Proof.
  induction s1 as [|a s1 IH]; intros [|b s2]; simpl; intros H; try done.
  injection H as Ha H. f_equal; [|by apply IH].
  by rewrite <- (ascii_N_embedding a), <- (ascii_N_embedding b), Ha.
Qed.

Lemma pretty_N_char_no_comma x : N_of_ascii (pretty_N_char x) <> COMMA.
Proof.
  unfold pretty_N_char. repeat case_match; intros Hc; vm_compute in Hc; discriminate Hc.
Qed.

Lemma pretty_N_go_no_comma x : forall s,
  Forall (fun c => c <> COMMA) (utf8_bytes s) ->
  Forall (fun c => c <> COMMA) (utf8_bytes (pretty_N_go x s)).
Proof.
  induction (N.lt_wf_0 x) as [x _ IH]; intros s Hs.
  destruct (decide (x = 0)%N) as [-> | Hx]; [by rewrite pretty_N_go_0|].
  rewrite pretty_N_go_step by lia. apply IH.
  - apply N.div_lt; lia.
  - simpl. constructor; [apply pretty_N_char_no_comma | done].
Qed.

Lemma str_of_nat_no_comma n : Forall (fun c => c <> COMMA) (str_of_nat n).
Proof.
  unfold str_of_nat, pretty, pretty_nat, pretty, pretty_N.
  destruct (decide _).
  - by repeat constructor.
  - by apply pretty_N_go_no_comma.
Qed.

Lemma str_of_nat_inj n1 n2 : str_of_nat n1 = str_of_nat n2 -> n1 = n2.
Proof. intros H%utf8_bytes_inj. by apply (inj pretty). Qed.

Lemma json_entry_closed e1 e2 r1 r2 :
  json_entry e1 ++ r1 = json_entry e2 ++ r2 -> e1 = e2 /\ r1 = r2.
Proof.
  destruct e1 as [n1 t1 l1 f1], e2 as [n2 t2 l2 f2]. unfold json_entry.
  cbn [number title level full_text]. rewrite <- !app_assoc. intros H.
  repeat apply app_inv_head in H.
  apply json_string_closed in H as [-> H].
  repeat apply app_inv_head in H.
  apply json_string_closed in H as [-> H].
  repeat apply app_inv_head in H.
  change (utf8 ",") with [COMMA] in H.
  apply (word_closed_by COMMA (str_of_nat l1) (str_of_nat l2)) in H as [Hl H];
    [|apply str_of_nat_no_comma..].
  apply str_of_nat_inj in Hl as ->.
  repeat apply app_inv_head in H.
  apply json_string_closed in H as [-> H].
  repeat apply app_inv_head in H. done.
Qed.

Lemma json_entries_closed es1 : forall es2,
  flat_map (fun p => (utf8 "," ++ [NL]) ++ p)
    (map (fun item => utf8 "  " ++ json_entry item) es1) ++ [NL] ++ utf8 "]"
  = flat_map (fun p => (utf8 "," ++ [NL]) ++ p)
      (map (fun item => utf8 "  " ++ json_entry item) es2) ++ [NL] ++ utf8 "]" ->
  es1 = es2.
Proof.
  induction es1 as [|e1 es1 IH]; intros [|e2 es2] H; [done | | |].
  - apply (f_equal (fun s => s !! 0)) in H. vm_compute in H. discriminate H.
  - apply (f_equal (fun s => s !! 0)) in H. vm_compute in H. discriminate H.
  - cbn [flat_map map] in H. rewrite <- !app_assoc in H.
    repeat apply app_inv_head in H.
    apply json_entry_closed in H as [-> H]. f_equal. by apply IH.
Qed.

(** X20: the JSON rendering is lossless: two outlines with the same
    rendering are the same outline, entry for entry and field for field. *)
Theorem json_dumps_lossless o1 o2 : json_dumps o1 = json_dumps o2 -> o1 = o2.
Proof.
  destruct o1 as [|e1 es1], o2 as [|e2 es2]; unfold json_dumps; intros H; [done | | |].
  - apply (f_equal (fun s => s !! 1)) in H. vm_compute in H. discriminate H.
  - apply (f_equal (fun s => s !! 1)) in H. vm_compute in H. discriminate H.
  - rewrite !map_cons, !join_flat, <- !app_assoc in H.
    repeat apply app_inv_head in H.
    apply json_entry_closed in H as [-> H]. f_equal. by apply json_entries_closed.
Qed.

Lemma json_dumps_lossless_witness :
  outline_of_soup 2 intro_doc = intro_outline.
Proof. apply json_dumps_lossless. vm_compute. reflexivity. Defined.
